(** * cps/gdriveutils.py: path cache, range splitter, chunked download

  A shallow embedding of the Google-Drive helper module of Calibre-Web.
  Python integers are [Z], Python strings are [string], the ORM session
  and the remote service are threaded explicitly through a small
  state-and-exception monad. *)

From Stdlib Require Import ZArith List String Ascii Bool Lia DecimalString.
Import ListNotations.

Local Open Scope string_scope.
Local Open Scope Z_scope.

(** ** Python built-ins used by the module *)

Module Py.

(** Exceptions the modelled code can raise. [RemoteError] stands for
    whatever the Drive client or the HTTP transport raises. *)
Inductive Exn : Type :=
| IndexError
| TypeError
| ValueError
| RemoteError (what : string)
| DatabaseError (what : string).

Inductive Result (A : Type) : Type :=
| Ok (a : A)
| Raise (e : Exn).
Arguments Ok {A} a.
Arguments Raise {A} e.

(** [s[-1]]: the last character, [None] standing for IndexError. *)
Fixpoint last_char (s : string) : option ascii :=
  match s with
  | EmptyString => None
  | String c EmptyString => Some c
  | String _ rest => last_char rest
  end.

(** [s.split(sep)] for a one-character separator. *)
Fixpoint split (sep : ascii) (s : string) : list string :=
  match s with
  | EmptyString => [EmptyString]
  | String c rest =>
      if Ascii.eqb c sep then EmptyString :: split sep rest
      else match split sep rest with
           | [] => [String c EmptyString]
           | h :: t => String c h :: t
           end
  end.

(** [sep.join(l)]. *)
Fixpoint join (sep : string) (l : list string) : string :=
  match l with
  | [] => EmptyString
  | [x] => x
  | x :: rest => x ++ sep ++ join sep rest
  end.

(** [old in s]. *)
Fixpoint contains (old s : string) : bool :=
  String.prefix old s ||
  match s with
  | EmptyString => false
  | String _ rest => contains old rest
  end.

(** [s.replace(old, new)] for a non-empty [old]: occurrences are replaced
    from the left and do not overlap.  [skip] counts the characters of a
    matched occurrence still to be dropped. *)
Fixpoint replace_from (old new : string) (skip : nat) (s : string) : string :=
  match s with
  | EmptyString => EmptyString
  | String c rest =>
      match skip with
      | S k => replace_from old new k rest
      | O =>
          if String.prefix old s
          then new ++ replace_from old new (Nat.pred (String.length old)) rest
          else String c (replace_from old new O rest)
      end
  end.

Definition replace (old new s : string) : string := replace_from old new O s.

(** ['%s' % n] for an integer. *)
Definition str_of_int (n : Z) : string := NilZero.string_of_int (Z.to_int n).

(** ['%s' % x] for a value that is a string or [None]. *)
Definition str_of_opt (x : option string) : string :=
  match x with
  | Some s => s
  | None => "None"
  end.

(** Truth value of a string-or-None. *)
Definition truthy (x : option string) : bool :=
  match x with
  | Some s => negb (String.eqb s EmptyString)
  | None => false
  end.

(** [range(start, stop, step)]: the loop of a range iterator, bounded by
    the number of integers between the two ends. *)
Fixpoint range_up (fuel : nat) (p stop step : Z) : list Z :=
  match fuel with
  | O => []
  | S fuel' => if p <? stop then p :: range_up fuel' (p + step) stop step else []
  end.

Fixpoint range_down (fuel : nat) (p stop step : Z) : list Z :=
  match fuel with
  | O => []
  | S fuel' => if stop <? p then p :: range_down fuel' (p + step) stop step else []
  end.

Definition range (start stop step : Z) : Result (list Z) :=
  if step =? 0 then Raise ValueError
  else if 0 <? step then Ok (range_up (Z.to_nat (stop - start)) start stop step)
  else Ok (range_down (Z.to_nat (start - stop)) start stop step).

End Py.
Import Py.

(** ** Values the store hands back *)

(** The column [gdrive_id] is declared Integer (lines 118 and 130) while
    the remote ids put into it are strings.  The engine keeps a text that
    reads as a number as that number, and what is read back is then a
    Python int, or a float for a real that is no whole number; any other
    text comes back as the string it was.  The ids a caller passes are
    values of the same kind: strings from the remote, or what was read
    from the store. *)
Inductive Number : Type :=
| Whole (z : Z)
| Fractional (text : string).

Inductive PyValue : Type :=
| PyNum (n : Number)
| PyStr (s : string).

Definition Number_eqb (a b : Number) : bool :=
  match a, b with
  | Whole x, Whole y => x =? y
  | Fractional x, Fractional y => String.eqb x y
  | _, _ => false
  end.

Definition PyValue_eqb (a b : PyValue) : bool :=
  match a, b with
  | PyNum x, PyNum y => Number_eqb x y
  | PyStr x, PyStr y => String.eqb x y
  | _, _ => false
  end.

Definition opt_value_eqb (a b : option PyValue) : bool :=
  match a, b with
  | Some x, Some y => PyValue_eqb x y
  | None, None => true
  | _, _ => false
  end.

(** ['%s' % x] for such a value or [None]; a float carries its text. *)
Definition str_of_value (x : option PyValue) : string :=
  match x with
  | Some (PyNum (Whole z)) => str_of_int z
  | Some (PyNum (Fractional t)) => t
  | Some (PyStr s) => s
  | None => "None"
  end.

(** Truth value of such a value or [None]: 0 and the empty string are
    false; a real that is no whole number is not zero. *)
Definition truthy_value (x : option PyValue) : bool :=
  match x with
  | Some (PyNum (Whole z)) => negb (z =? 0)
  | Some (PyNum (Fractional _)) => true
  | Some (PyStr s) => negb (String.eqb s EmptyString)
  | None => false
  end.

(** ** Chunk splitter *)

(** The pair [[p, last]] appended at lines 517-518. *)
Definition pair_at (total_byte_len part_size_limit p : Z) : Z * Z :=
  (p, Z.min (total_byte_len - 1) (p + part_size_limit - 1)).

(** [partial(total_byte_len, part_size_limit)], lines 514-519. *)
Definition partial (total_byte_len part_size_limit : Z) : Result (list (Z * Z)) :=
  match range 0 total_byte_len part_size_limit with
  | Raise e => Raise e
  | Ok ps => Ok (map (pair_at total_byte_len part_size_limit) ps)
  end.

(** What the splitter is expected to deliver, on lists of inclusive pairs. *)
Module Ranges.

Definition in_pair (x : Z) (r : Z * Z) : Prop := fst r <= x <= snd r.

(** Each pair starts right after the previous one ends. *)
Definition contiguous (l : list (Z * Z)) : Prop :=
  forall i a b, nth_error l i = Some a -> nth_error l (S i) = Some b ->
                fst b = snd a + 1.

(** Earlier pairs end before later pairs start. *)
Definition non_overlapping (l : list (Z * Z)) : Prop :=
  forall i j a b, (i < j)%nat -> nth_error l i = Some a -> nth_error l j = Some b ->
                  snd a < fst b.

(** The pairs cover the bytes [0 .. total-1] and nothing else. *)
Definition covers (l : list (Z * Z)) (total : Z) : Prop :=
  forall x, 0 <= x <= total - 1 <-> exists r, In r l /\ in_pair x r.

Definition bounded (l : list (Z * Z)) (chunk : Z) : Prop :=
  forall r, In r l -> fst r <= snd r /\ snd r - fst r + 1 <= chunk.

Definition ends_at (l : list (Z * Z)) (total : Z) : Prop :=
  forall r, List.last (map Some l) None = Some r -> snd r = total - 1.

(** The pairs tile [from .. upto-1] from left to right. *)
Fixpoint tiles (from : Z) (l : list (Z * Z)) (upto : Z) : Prop :=
  match l with
  | [] => from = upto
  | r :: l' => fst r = from /\ fst r <= snd r /\ snd r < upto /\ tiles (snd r + 1) l' upto
  end.

End Ranges.

(** ** The local store (gdrive.db) and the outside world *)

(** A row of [gdrive_ids] (class [GdriveId]) as the store holds it; columns
    may hold NULL. *)
Record GdriveId : Type := mkGdriveId {
  gd_id : Z;
  gdrive_id : option PyValue;
  path : string
}.

(** A row of [permissions_added] (class [PermissionAdded]). *)
Record PermissionAdded : Type := mkPermissionAdded {
  pa_id : Z;
  pa_gdrive_id : option PyValue
}.

Record Tables : Type := mkTables {
  gdrive_ids : list GdriveId;
  permissions_added : list PermissionAdded
}.

(** A file object returned by the Drive client: [df['id']] and
    [df.metadata.get('webContentLink')]. *)
Record DriveFile : Type := mkDriveFile {
  file_id : string;
  webContentLink : option string
}.

(** The remote service as the module sees it.  A listing answers a query
    string; each call either returns or raises. *)
Record Drive : Type := mkDrive {
  ListFile_GetList : string -> Result (list DriveFile);
  GetPermissions : DriveFile -> Result unit;
  InsertPermission : DriveFile -> Result unit
}.

Inductive RemoteCall : Type :=
| CallListFile (q : string)
| CallGetPermissions (fid : string)
| CallInsertPermission (fid : string).

Inductive LogEntry : Type :=
| LogError (msg : string)
| LogWarning (msg : string) (status : Z).

(** [session] is what queries of the scoped session see (autoflush makes
    pending rows visible), [committed] is the last committed content,
    [remote_calls] and [log] record remote calls and log lines in order.
    Tables keep their rows in insertion order, which is the order of a
    lookup by path; a lookup by remote id is answered from the index on
    (gdrive_id, path) and follows that order. *)
Record World : Type := mkWorld {
  session : Tables;
  committed : Tables;
  remote_calls : list RemoteCall;
  log : list LogEntry
}.

Definition record_call (c : RemoteCall) (w : World) : World :=
  mkWorld (session w) (committed w) (remote_calls w ++ [c]) (log w).

Definition empty_tables : Tables := mkTables [] [].
Definition empty_world : World := mkWorld empty_tables empty_tables [] [].

(** ** State and exceptions *)

Definition M (A : Type) : Type := World -> Result A * World.

Definition ret {A : Type} (a : A) : M A := fun w => (Ok a, w).

Definition bind {A B : Type} (m : M A) (k : A -> M B) : M B :=
  fun w => match m w with
           | (Ok a, w') => k a w'
           | (Raise e, w') => (Raise e, w')
           end.

Definition raise {A : Type} (e : Exn) : M A := fun w => (Raise e, w).

(** [try: m except Exception: h]. *)
Definition try_except {A : Type} (m : M A) (h : Exn -> M A) : M A :=
  fun w => match m w with
           | (Ok a, w') => (Ok a, w')
           | (Raise e, w') => h e w'
           end.

Declare Scope py_scope.
Delimit Scope py_scope with py.
Notation "x <- m ;; k" := (bind m (fun x => k))
  (at level 61, m at next level, right associativity) : py_scope.
Notation "m ;;; k" := (bind m (fun _ => k))
  (at level 61, right associativity) : py_scope.
Local Open Scope py_scope.

(** ** Session primitives *)

(** Next value of an INTEGER PRIMARY KEY: one more than the largest. *)
Definition next_id (ids : list Z) : Z := 1 + fold_right Z.max 0 ids.

Definition set_gdrive_ids (rows : list GdriveId) (w : World) : World :=
  mkWorld (mkTables rows (permissions_added (session w)))
          (committed w) (remote_calls w) (log w).

Definition set_permissions_added (rows : list PermissionAdded) (w : World) : World :=
  mkWorld (mkTables (gdrive_ids (session w)) rows)
          (committed w) (remote_calls w) (log w).

(** [session.query(GdriveId).filter(GdriveId.path == p).first()]. *)
Definition query_path (p : string) : M (option GdriveId) :=
  fun w => (Ok (find (fun r => String.eqb (path r) p) (gdrive_ids (session w))), w).

(** Order of two rows with the same remote id in the index on
    (gdrive_id, path): by path, bytewise, then by primary key. *)
Definition index_before (a b : GdriveId) : bool :=
  match String.compare (path a) (path b) with
  | Lt => true
  | Eq => gd_id a <=? gd_id b
  | Gt => false
  end.

(** The first of some rows in that order. *)
Fixpoint index_first (rows : list GdriveId) : option GdriveId :=
  match rows with
  | [] => None
  | r :: rest =>
      match index_first rest with
      | None => Some r
      | Some m => if index_before r m then Some r else Some m
      end
  end.

(** The row object returned by [.first()] is known by its primary key;
    assigning its [path] rewrites the row with that key. *)
Definition set_path_of_key (key : Z) (p : string) (rows : list GdriveId)
  : list GdriveId :=
  map (fun r => if gd_id r =? key then mkGdriveId (gd_id r) (gdrive_id r) p else r) rows.

(** Another row holds the same remote id with the path [p]: storing [p] in
    [row] would break the constraint [_gdrive_path_uc] of line 120.  Rows
    without remote id never clash, NULLs being distinct. *)
Definition breaks_gdrive_path_uc (row : GdriveId) (p : string) (rows : list GdriveId)
  : bool :=
  existsb (fun r => negb (gd_id r =? gd_id row)
                    && match gdrive_id r, gdrive_id row with
                       | Some a, Some b => PyValue_eqb a b
                       | _, _ => false
                       end
                    && String.eqb (path r) p) rows.

Definition session_commit : M unit :=
  fun w => (Ok tt, mkWorld (session w) (session w) (remote_calls w) (log w)).

Definition logger_error (msg : string) : M unit :=
  fun w => (Ok tt, mkWorld (session w) (committed w) (remote_calls w)
                           (log w ++ [LogError msg])).

(** [path if path[-1] == '/' else path + '/'] *)
Definition slash_terminated (p : string) : Result string :=
  match last_char p with
  | None => Raise IndexError
  | Some c => if Ascii.eqb c "/"%char then Ok p else Ok (p ++ "/")
  end.

Definition lift {A : Type} (r : Result A) : M A := fun w => (r, w).

Section Store.

(** The number a text reads as for the engine, if it reads as one: what
    the Integer affinity of the column turns the text into. *)
Variable affinity : string -> option Number.

(** What the column holds for a value bound to it; [None] is NULL. *)
Definition to_column (v : PyValue) : PyValue :=
  match v with
  | PyStr s =>
      match affinity s with
      | Some n => PyNum n
      | None => PyStr s
      end
  | PyNum _ => v
  end.

Definition stored (v : option PyValue) : option PyValue := option_map to_column v.

(** [column == ID] in a filter: the value held is compared with what the
    column makes of [ID]; [== None] is IS NULL. *)
Definition same_id (held ID : option PyValue) : bool := opt_value_eqb held (stored ID).

(** [session.query(GdriveId).filter(GdriveId.gdrive_id == ID).first()]. *)
Definition query_gdrive_id (ID : option PyValue) : M (option GdriveId) :=
  fun w => (Ok (index_first (filter (fun r => same_id (gdrive_id r) ID)
                                    (gdrive_ids (session w)))), w).

(** [session.query(PermissionAdded).filter(PermissionAdded.gdrive_id == fid).first()]. *)
Definition query_permission (fid : option PyValue) : M (option PermissionAdded) :=
  fun w => (Ok (find (fun r => same_id (pa_gdrive_id r) fid)
                     (permissions_added (session w))), w).

(** A new row of [gdrive_ids], with the next primary key.  The row holds
    what the column makes of the remote id, which is what a later query
    reads. *)
Definition insert_row (g : option PyValue) (p : string) (w : World) : World :=
  let rows := gdrive_ids (session w) in
  set_gdrive_ids (rows ++ [mkGdriveId (next_id (map gd_id rows)) (stored g) p]) w.

(** [session.merge(gDriveId)] for a fresh object without primary key. *)
Definition session_merge (g : option PyValue) (p : string) : M unit :=
  fun w => (Ok tt, insert_row g p w).

(** [session.add(permissionAdded)]. *)
Definition session_add (fid : option PyValue) : M unit :=
  fun w =>
    let rows := permissions_added (session w) in
    (Ok tt, set_permissions_added
              (rows ++ [mkPermissionAdded (next_id (map pa_id rows)) (stored fid)]) w).

End Store.

(** ** Remote lookups and the path cache *)

(** The drive handle is passed around as in the source; refreshing its
    credentials ([getDrive]) touches neither the store nor the listings and
    is left out. *)

Section Gdrive.

Variable affinity : string -> option Number.

Variable drive : Drive.

(** [config.config_google_drive_folder]: the name of the library folder. *)
Variable config_google_drive_folder : string.

(** [drive.ListFile({'q': q}).GetList()]: recorded, then answered or raised. *)
Definition ListFile (q : string) : M (list DriveFile) :=
  fun w => (ListFile_GetList drive q, record_call (CallListFile q) w).

Definition call_GetPermissions (df : DriveFile) : M unit :=
  fun w => (GetPermissions drive df, record_call (CallGetPermissions (file_id df)) w).

Definition call_InsertPermission (df : DriveFile) : M unit :=
  fun w => (InsertPermission drive df, record_call (CallInsertPermission (file_id df)) w).

(** [fileList[0]] or [None] on an empty listing. *)
Definition first_or_None (fileList : list DriveFile) : option DriveFile :=
  match fileList with
  | [] => None
  | f :: _ => Some f
  end.

(** [x.replace("'", r"\'")] *)
Definition escape_quote (x : string) : string := replace "'" "\'" x.

(** The query string [folder] built at lines 200-204. *)
Definition folder_query (parentId : option PyValue) (folderName : string) : string :=
  let query :=
    if String.eqb folderName EmptyString then EmptyString
    else "title = '" ++ escape_quote folderName ++ "' and " in
  query ++ "'" ++ str_of_value parentId
        ++ "' in parents and mimeType = 'application/vnd.google-apps.folder'"
        ++ " and trashed = false".

(** [getFolderInFolder(parentId, folderName, drive)], lines 198-209. *)
Definition getFolderInFolder (parentId : option PyValue) (folderName : string)
  : M (option DriveFile) :=
  fileList <- ListFile (folder_query parentId folderName) ;;
  ret (first_or_None fileList).

(** [getEbooksFolder(drive)], lines 194-195. *)
Definition getEbooksFolder : M (option DriveFile) :=
  getFolderInFolder (Some (PyStr "root")) config_google_drive_folder.

(** [f['id']]: subscripting [None] raises TypeError. *)
Definition subscript_id (f : option DriveFile) : M (option PyValue) :=
  match f with
  | None => raise TypeError
  | Some df => ret (Some (PyStr (file_id df)))
  end.

(** [getEbooksFolderId(drive)], lines 212-225.  On a miss the attribute
    [gdrive_id] keeps its default [None] when the lookup raises, the row is
    merged and committed, and the function ends with a bare [return]. *)
Definition getEbooksFolderId : M (option PyValue) :=
  storedPathName <- query_path "/" ;;
  match storedPathName with
  | Some r => ret (gdrive_id r)
  | None =>
      g <- try_except
             (f <- getEbooksFolder ;; subscript_id f)
             (fun _ => logger_error "Error gDrive, root ID not found" ;;; ret None) ;;
      session_merge affinity g "/" ;;;
      session_commit ;;;
      ret None
  end.

(** [getFile(pathId, fileName, drive)], lines 228-234. *)
Definition getFile (pathId : option PyValue) (fileName : string) : M (option DriveFile) :=
  let metaDataFile :=
    "'" ++ str_of_value pathId ++ "' in parents and trashed = false and title = '"
        ++ escape_quote fileName ++ "'" in
  fileList <- ListFile metaDataFile ;;
  ret (first_or_None fileList).

(** The loop of [getFolderId], lines 246-265, over [enumerate(s)]:
    [before] holds [s[:i]], the list argument holds [s[i:]].  The result is
    [(currentFolderId, dbChange)] when the loop ends or breaks.  After a
    merge [currentFolderId] is the id as the remote gave it, while the
    row holds what the column makes of it. *)
Fixpoint getFolderId_loop (before : list string) (s : list string)
  (currentFolderId : option PyValue) (dbChange : bool)
  : M (option PyValue * bool) :=
  match s with
  | [] => ret (currentFolderId, dbChange)
  | x :: rest =>
      if (0 <? Z.of_nat (String.length x)) then
        currentPath <- lift (slash_terminated (join "/" (before ++ [x]))) ;;
        storedPathName <- query_path currentPath ;;
        match storedPathName with
        | Some r =>
            getFolderId_loop (before ++ [x]) rest (gdrive_id r) dbChange
        | None =>
            currentFolder <- getFolderInFolder currentFolderId x ;;
            match currentFolder with
            | Some f =>
                session_merge affinity (Some (PyStr (file_id f))) currentPath ;;;
                getFolderId_loop (before ++ [x]) rest (Some (PyStr (file_id f))) true
            | None => ret (None, dbChange)
            end
        end
      else getFolderId_loop (before ++ [x]) rest currentFolderId dbChange
  end.

(** Lines 240-270 of [getFolderId], given the value line 239 assigned to
    [currentFolderId]. *)
Definition getFolderId_body (currentFolderId : option PyValue) (path : string)
  : M (option PyValue) :=
  sqlCheckPath <- lift (slash_terminated path) ;;
  storedPathName <- query_path sqlCheckPath ;;
  match storedPathName with
  | None =>
      r <- getFolderId_loop [] (split "/"%char path) currentFolderId false ;;
      (if snd r then session_commit else ret tt) ;;;
      ret (fst r)
  | Some row => ret (gdrive_id row)
  end.

(** [getFolderId(path, drive)], lines 237-270. *)
Definition getFolderId (path : string) : M (option PyValue) :=
  currentFolderId <- getEbooksFolderId ;;
  getFolderId_body currentFolderId path.

(** [getFileFromEbooksFolder(path, fileName)], lines 273-283; the path may
    be [None]. *)
Definition getFileFromEbooksFolder (path : option string) (fileName : string)
  : M (option DriveFile) :=
  folderId <- (if truthy path then getFolderId (str_of_opt path)
               else getEbooksFolderId) ;;
  if truthy_value folderId then getFile folderId fileName else ret None.

(** [deleteDatabaseOnChange()], lines 469-471. *)
Definition deleteDatabaseOnChange : M unit :=
  (fun w => (Ok tt, set_gdrive_ids [] w)) ;;;
  session_commit.

(** [updateDatabaseOnEdit(ID, newPath)], lines 480-485.  The row found is
    the first in the order of the index.  When its new path is held by
    another row with the same remote id, the commit raises IntegrityError
    and nothing is written: the world stays as it was, which is what the
    store holds when nothing was pending.  The rollback the session then
    needs before its next use is the caller's and is not modelled. *)
Definition updateDatabaseOnEdit (ID : option PyValue) (newPath : string) : M unit :=
  sqlCheckPath <- lift (slash_terminated newPath) ;;
  storedPathName <- query_gdrive_id affinity ID ;;
  match storedPathName with
  | Some row =>
      fun w =>
        if breaks_gdrive_path_uc row sqlCheckPath (gdrive_ids (session w))
        then (Raise (DatabaseError "IntegrityError"), w)
        else session_commit
               (set_gdrive_ids
                  (set_path_of_key (gd_id row) sqlCheckPath (gdrive_ids (session w))) w)
  | None => ret tt
  end.

(** [deleteDatabaseEntry(ID)], lines 489-491. *)
Definition deleteDatabaseEntry (ID : option PyValue) : M unit :=
  (fun w => (Ok tt, set_gdrive_ids
                      (filter (fun r => negb (same_id affinity (gdrive_id r) ID))
                              (gdrive_ids (session w))) w)) ;;;
  session_commit.

(** [get_cover_via_gdrive(cover_path)], lines 495-511: the result is the
    file's [webContentLink]. *)
Definition get_cover_via_gdrive (cover_path : option string) : M (option string) :=
  df <- getFileFromEbooksFolder cover_path "cover.jpg" ;;
  match df with
  | Some f =>
      granted <- query_permission affinity (Some (PyStr (file_id f))) ;;
      match granted with
      | None =>
          call_GetPermissions f ;;;
          call_InsertPermission f ;;;
          session_add affinity (Some (PyStr (file_id f))) ;;;
          session_commit
      | Some _ => ret tt
      end ;;;
      ret (webContentLink f)
  | None => ret None
  end.

(** The operations of the module that read or write the store. *)
Inductive Op : Type :=
| OpGetEbooksFolderId
| OpGetFolderId (path : string)
| OpGetFileFromEbooksFolder (path : option string) (fileName : string)
| OpDeleteDatabaseOnChange
| OpUpdateDatabaseOnEdit (ID : option PyValue) (newPath : string)
| OpDeleteDatabaseEntry (ID : option PyValue)
| OpGetCoverViaGdrive (cover_path : option string).

(** The world after an operation; an exception leaves the world as it was
    when it was raised. *)
Definition run_op (op : Op) (w : World) : World :=
  match op with
  | OpGetEbooksFolderId => snd (getEbooksFolderId w)
  | OpGetFolderId p => snd (getFolderId p w)
  | OpGetFileFromEbooksFolder p f => snd (getFileFromEbooksFolder p f w)
  | OpDeleteDatabaseOnChange => snd (deleteDatabaseOnChange w)
  | OpUpdateDatabaseOnEdit ID p => snd (updateDatabaseOnEdit ID p w)
  | OpDeleteDatabaseEntry ID => snd (deleteDatabaseEntry ID w)
  | OpGetCoverViaGdrive p => snd (get_cover_via_gdrive p w)
  end.

Definition run_ops (ops : list Op) (w : World) : World :=
  fold_left (fun w op => run_op op w) ops w.

End Gdrive.

(** ** Streaming download *)

Inductive HttpResult : Type :=
| HttpResponse (status : Z) (content : string)
| HttpFailure (e : Exn).

(** One resumption of the generator [stream()]. *)
Inductive GenStep : Type :=
| Yield (content : string) (rest : list (Z * Z))
| Return (logged : list LogEntry)
| GenRaise (e : Exn).

(** What a consumer that drains the generator observes: the chunks in
    order, the ranges requested in order, the lines logged, and an
    exception if one ended the stream. *)
Record Drained : Type := mkDrained {
  chunks : list (Z * Z * string);
  requested : list (Z * Z);
  warnings : list LogEntry;
  raised : option Exn
}.

Section Download.

(** [df.auth.Get_Http_Object().request(download_url, headers=headers)],
    keyed by the URL and the value of the Range header. *)
Variable request : string -> string -> HttpResult.

Variable download_url : string.

Definition range_header (byte : Z * Z) : string :=
  "bytes=" ++ str_of_int (fst byte) ++ "-" ++ str_of_int (snd byte).

(** The body of [stream()], lines 527-535, up to its next [yield]. *)
Definition stream_next (s : list (Z * Z)) : GenStep :=
  match s with
  | [] => Return []
  | byte :: rest =>
      match request download_url (range_header byte) with
      | HttpFailure e => GenRaise e
      | HttpResponse status content =>
          if status =? 206 then Yield content rest
          else Return [LogWarning "An error occurred: %s" status]
      end
  end.

(** Pulling until the generator stops. *)
Fixpoint drain (s : list (Z * Z)) : Drained :=
  match s with
  | [] => mkDrained [] [] [] None
  | byte :: rest =>
      match stream_next (byte :: rest) with
      | Yield content _ =>
          let d := drain rest in
          mkDrained ((byte, content) :: chunks d) (byte :: requested d)
                    (warnings d) (raised d)
      | Return logged => mkDrained [] [byte] logged None
      | GenRaise e => mkDrained [] [byte] [] (Some e)
      end
  end.

(** [do_gdrive_download(df, headers)], lines 522-536: the ranges the
    response body iterates over, for a file of [total_size] bytes. *)
Definition do_gdrive_download (total_size : Z) : Result (list (Z * Z)) :=
  partial total_size (1024 * 1024).

End Download.

(** ** Schema migration *)

(** What [migrate] asks of the database engine.  Statements are sent as
    text; a statement the engine rejects raises. *)
Record Engine (DB : Type) : Type := mkEngine {
  has_table : DB -> string -> bool;
  create_permissions_added : DB -> Result DB;
  select_table_sql : DB -> list string;
  execute : string -> DB -> Result DB;
  commit : DB -> Result DB
}.
Arguments has_table {DB} _ _ _.
Arguments create_permissions_added {DB} _ _.
Arguments select_table_sql {DB} _ _.
Arguments execute {DB} _ _ _.
Arguments commit {DB} _ _.

(** No listed [gdrive_ids] table carries the standalone constraint. *)
Definition no_standalone_constraint (rows : list string) : Prop :=
  forall sql, In sql rows ->
              contains "CREATE TABLE gdrive_ids" sql = true ->
              contains "UNIQUE (gdrive_id)" sql = false.

Section Migrate.

Context {DB : Type} (engine : Engine DB).

Definition and_then (r : Result DB) (k : DB -> Result DB) : Result DB :=
  match r with
  | Ok db => k db
  | Raise e => Raise e
  end.

Definition currUniqueConstraint : string := "UNIQUE (gdrive_id)".

(** The statement built at lines 143-144. *)
Definition widened_sql (sql : string) : string :=
  replace "gdrive_ids" "gdrive_ids2"
          (replace currUniqueConstraint "UNIQUE (gdrive_id, path)" sql).

(** Lines 145-150. *)
Definition rewrite_table (sql : string) (db : DB) : Result DB :=
  and_then (execute engine (widened_sql sql) db) (fun db =>
  and_then (execute engine
     "INSERT INTO gdrive_ids2 (id, gdrive_id, path) SELECT id, gdrive_id, path FROM gdrive_ids;"
     db) (fun db =>
  and_then (commit engine db) (fun db =>
  and_then (execute engine "DROP TABLE gdrive_ids" db) (fun db =>
  execute engine "ALTER TABLE gdrive_ids2 RENAME to gdrive_ids" db)))).

(** The loop of lines 139-151 over the rows of the [select]. *)
Fixpoint migrate_loop (rows : list string) (db : DB) : Result DB :=
  match rows with
  | [] => Ok db
  | sql :: rest =>
      if contains "CREATE TABLE gdrive_ids" sql then
        if contains currUniqueConstraint sql then rewrite_table sql db
        else Ok db
      else migrate_loop rest db
  end.

(** [migrate()], lines 136-151. *)
Definition migrate (db : DB) : Result DB :=
  and_then (if has_table engine db "permissions_added" then Ok db
            else create_permissions_added engine db)
           (fun db => migrate_loop (select_table_sql engine db) db).

End Migrate.

(** ** Concrete remotes and databases used in the examples *)

Module Examples.

Definition id_library : string := "id-library".
Definition id_books : string := "id-books".
Definition id_author1 : string := "id-author1".
Definition id_cover : string := "id-cover".

Definition no_exception : DriveFile -> Result unit := fun _ => Ok tt.

(** The value of a text of decimal digits. *)
Fixpoint digits_value (acc : Z) (s : string) : option Z :=
  match s with
  | EmptyString => Some acc
  | String c rest =>
      let d := Z.of_nat (nat_of_ascii c) - 48 in
      if (0 <=? d) && (d <=? 9) then digits_value (10 * acc + d) rest else None
  end.

(** The affinity on the texts the examples use: decimal digits, with or
    without a minus sign, read as that whole number; the other texts used
    here hold a letter and read as no number. *)
Definition affinity (s : string) : option Number :=
  match s with
  | EmptyString => None
  | String "-" EmptyString => None
  | String "-" rest => option_map (fun z => Whole (- z)) (digits_value 0 rest)
  | _ => option_map Whole (digits_value 0 s)
  end.

(** Drive root -> "Calibre" (the configured library folder) -> "Books" ->
    "Author1", which holds a file "cover.jpg".  Every other listing is
    empty. *)
Definition tree_listing (q : string) : Result (list DriveFile) :=
  if String.eqb q
       "title = 'Calibre' and 'root' in parents and mimeType = 'application/vnd.google-apps.folder' and trashed = false"
  then Ok [mkDriveFile id_library None]
  else if String.eqb q
       "title = 'Books' and 'id-library' in parents and mimeType = 'application/vnd.google-apps.folder' and trashed = false"
  then Ok [mkDriveFile id_books None]
  else if String.eqb q
       "title = 'Author1' and 'id-books' in parents and mimeType = 'application/vnd.google-apps.folder' and trashed = false"
  then Ok [mkDriveFile id_author1 None]
  else if String.eqb q
       "'id-author1' in parents and trashed = false and title = 'cover.jpg'"
  then Ok [mkDriveFile id_cover (Some "https://drive.example/cover")]
  else Ok [].

Definition tree_drive : Drive := mkDrive tree_listing no_exception no_exception.



(** The library "Calibre" of [root_only] on a remote that gives the folder
    "Books" the id "007", a text that reads as a number; "Author1" lies in
    that folder. *)
Definition numbered_listing (q : string) : Result (list DriveFile) :=
  if String.eqb q
       "title = 'Books' and 'id-library' in parents and mimeType = 'application/vnd.google-apps.folder' and trashed = false"
  then Ok [mkDriveFile "007" None]
  else if String.eqb q
       "title = 'Author1' and '007' in parents and mimeType = 'application/vnd.google-apps.folder' and trashed = false"
  then Ok [mkDriveFile id_author1 None]
  else Ok [].

Definition numbered_drive : Drive := mkDrive numbered_listing no_exception no_exception.


(** A remote on which every listing raises. *)
Definition unreachable_drive : Drive :=
  mkDrive (fun _ => Raise (RemoteError "HttpError")) no_exception no_exception.

(** A cache that holds only the library root. *)
Definition root_only : Tables :=
  mkTables [mkGdriveId 1 (Some (PyStr id_library)) "/"] [].
Definition root_cached : World := mkWorld root_only root_only [] [].

(** A cache that holds a folder row but no row for "/". *)
Definition author_only : Tables :=
  mkTables [mkGdriveId 1 (Some (PyStr id_author1)) "Author1/"] [].
Definition author_cached : World := mkWorld author_only author_only [] [].

(** A cache in which one remote id is held under two paths, the greater
    path in the older row. *)
Definition held_twice : Tables :=
  mkTables [mkGdriveId 1 (Some (PyStr id_books)) "Shelf/";
            mkGdriveId 2 (Some (PyStr id_books)) "Books/"] [].
Definition held_twice_cached : World := mkWorld held_twice held_twice [] [].

(** A server that answers 206 with the range header as content, except for
    the second megabyte, which it refuses with 403. *)
Definition flaky_request (url header : string) : HttpResult :=
  if String.eqb header "bytes=1048576-2097151" then HttpResponse 403 "Forbidden"
  else HttpResponse 206 header.

(** A small database engine: named tables with the text that created them. *)
Record Table : Type := mkTable {
  t_name : string;
  t_sql : string;
  t_rows : list GdriveId
}.

Definition has (db : list Table) (n : string) : bool :=
  existsb (fun t => String.eqb (t_name t) n) db.

Definition rows_of (db : list Table) (n : string) : list GdriveId :=
  match find (fun t => String.eqb (t_name t) n) db with
  | Some t => t_rows t
  | None => []
  end.

Fixpoint first_word (s : string) : string :=
  match s with
  | EmptyString => EmptyString
  | String c rest => if Ascii.eqb c " "%char then EmptyString else String c (first_word rest)
  end.

Definition after (pre s : string) : option string :=
  if String.prefix pre s
  then Some (String.substring (String.length pre) (String.length s - String.length pre)%nat s)
  else None.

Definition copy_statement : string :=
  "INSERT INTO gdrive_ids2 (id, gdrive_id, path) SELECT id, gdrive_id, path FROM gdrive_ids;".

Definition rename_statement : string := "ALTER TABLE gdrive_ids2 RENAME to gdrive_ids".

Definition run_statement (stmt : string) (db : list Table) : Result (list Table) :=
  match after "CREATE TABLE " stmt with
  | Some r =>
      if has db (first_word r) then Raise (DatabaseError "table already exists")
      else Ok (db ++ [mkTable (first_word r) stmt []])%list
  | None =>
      if String.eqb stmt copy_statement then
        if has db "gdrive_ids" && has db "gdrive_ids2" then
          Ok (map (fun t => if String.eqb (t_name t) "gdrive_ids2"
                            then mkTable (t_name t) (t_sql t)
                                         (t_rows t ++ rows_of db "gdrive_ids")%list
                            else t) db)
        else Raise (DatabaseError "no such table")
      else
        match after "DROP TABLE " stmt with
        | Some n =>
            if has db n then Ok (filter (fun t => negb (String.eqb (t_name t) n)) db)
            else Raise (DatabaseError "no such table")
        | None =>
            if String.eqb stmt rename_statement then
              if has db "gdrive_ids2" && negb (has db "gdrive_ids") then
                Ok (map (fun t => if String.eqb (t_name t) "gdrive_ids2"
                                  then mkTable "gdrive_ids"
                                               (replace "gdrive_ids2" "gdrive_ids" (t_sql t))
                                               (t_rows t)
                                  else t) db)
              else Raise (DatabaseError "cannot rename")
            else Raise (DatabaseError "unsupported statement")
        end
  end.

Definition permissions_ddl : string :=
  "CREATE TABLE permissions_added (id INTEGER NOT NULL, gdrive_id INTEGER, PRIMARY KEY (id), UNIQUE (gdrive_id))".

Definition sqlite : Engine (list Table) :=
  mkEngine (list Table) has
           (fun db => Ok (db ++ [mkTable "permissions_added" permissions_ddl []])%list)
           (map t_sql) run_statement (fun db => Ok db).

Definition some_rows : list GdriveId :=
  [mkGdriveId 1 (Some (PyStr id_library)) "/";
   mkGdriveId 2 (Some (PyStr id_books)) "Books/"].

(** A database file written before the constraint was widened. *)
Definition legacy_db : list Table :=
  [mkTable "gdrive_ids"
     "CREATE TABLE gdrive_ids (id INTEGER NOT NULL, gdrive_id INTEGER, path VARCHAR, PRIMARY KEY (id), UNIQUE (gdrive_id))"
     some_rows].

(** The same content under the widened constraint. *)
Definition widened_db : list Table :=
  [mkTable "permissions_added" permissions_ddl [];
   mkTable "gdrive_ids"
     "CREATE TABLE gdrive_ids (id INTEGER NOT NULL, gdrive_id INTEGER, path VARCHAR, PRIMARY KEY (id), UNIQUE (gdrive_id, path))"
     some_rows].

End Examples.

(** ** Notions used in the statements *)

(** The row a lookup by path returns, and the one a lookup by remote id
    returns. *)
Definition row_for_path (p : string) (w : World) : option GdriveId :=
  find (fun r => String.eqb (path r) p) (gdrive_ids (session w)).

Definition row_for_id (affinity : string -> option Number) (ID : option PyValue)
           (w : World) : option GdriveId :=
  index_first (filter (fun r => same_id affinity (gdrive_id r) ID)
                      (gdrive_ids (session w))).

Definition permission_for (affinity : string -> option Number) (fid : string)
           (w : World) : option PermissionAdded :=
  find (fun r => same_id affinity (pa_gdrive_id r) (Some (PyStr fid)))
       (permissions_added (session w)).

(** The listing that root discovery asks for. *)
Definition root_query (config_google_drive_folder : string) : string :=
  folder_query (Some (PyStr "root")) config_google_drive_folder.

(** What root discovery finds as the remote id of "/": the id of the first
    folder listed, nothing when the listing is empty or raises. *)
Definition discovered_root (drive : Drive) (folder : string) : option PyValue :=
  match ListFile_GetList drive (root_query folder) with
  | Ok (f :: _) => Some (PyStr (file_id f))
  | _ => None
  end.

(** The world root discovery leaves behind on a cache without a "/" row:
    the row holds what the column makes of the id found. *)
Definition after_root_discovery (affinity : string -> option Number) (drive : Drive)
           (folder : string) (w : World) : World :=
  let rows := gdrive_ids (session w) in
  let t := mkTables (rows ++ [mkGdriveId (next_id (map gd_id rows))
                                        (stored affinity (discovered_root drive folder))
                                        "/"])%list
                    (permissions_added (session w)) in
  mkWorld t t
          (remote_calls w ++ [CallListFile (root_query folder)])%list
          (match discovered_root drive folder with
           | Some _ => log w
           | None => log w ++ [LogError "Error gDrive, root ID not found"]
           end)%list.

(** The server answers the request for a range with status 206. *)
Definition answers_206 (request : string -> string -> HttpResult) (url : string)
           (byte : Z * Z) : Prop :=
  exists content, request url (range_header byte) = HttpResponse 206 content.

(** Number of remote calls of each kind in a trace. *)
Definition is_listing (c : RemoteCall) : bool :=
  match c with CallListFile _ => true | _ => false end.

Definition is_grant_of (fid : string) (c : RemoteCall) : bool :=
  match c with CallInsertPermission f => String.eqb f fid | _ => false end.


Definition grants_of (fid : string) (w : World) : nat :=
  List.length (filter (is_grant_of fid) (remote_calls w)).

(** Rows found by path stay found, with the same content. *)
Definition extends (w w' : World) : Prop :=
  forall p r, row_for_path p w = Some r -> row_for_path p w' = Some r.

(** Nothing happened to the recorded grants. *)
Definition keeps_grants (w w' : World) : Prop :=
  permissions_added (session w') = permissions_added (session w) /\
  forall fid, grants_of fid w' = grants_of fid w.

(** A computation relates every world to the world it ends in. *)
Definition frame (R : World -> World -> Prop) {A : Type} (m : M A) : Prop :=
  forall w, R w (snd (m w)).


(** Some component of a split path is not empty. *)
Definition has_component (s : list string) : bool :=
  existsb (fun x => 0 <? Z.of_nat (String.length x)) s.

(** The world [get_cover_via_gdrive] leaves when it grants: both remote
    calls recorded, the row added, the session committed. *)
Definition granted (affinity : string -> option Number) (f : DriveFile) (w : World)
  : World :=
  let w2 := record_call (CallInsertPermission (file_id f))
                        (record_call (CallGetPermissions (file_id f)) w) in
  let rows := permissions_added (session w2) in
  let t := mkTables (gdrive_ids (session w2))
                    (rows ++ [mkPermissionAdded
                                (next_id (map pa_id rows))
                                (stored affinity (Some (PyStr (file_id f))))])%list in
  mkWorld t t (remote_calls w2) (log w2).

(** ** The singleton decorator *)

(** An object of class [Singleton], lines 51-87.  [_decorated] is the
    decorated class: its constructor may raise, and what it does may depend
    on how often it has run, which [constructions] counts.  [_instance] is
    the attribute that [Instance] sets on first use. *)
Record Singleton (A : Type) : Type := mkSingleton {
  _decorated : nat -> Result A;
  _instance : option A;
  constructions : nat
}.
Arguments mkSingleton {A} _ _ _.
Arguments _decorated {A} _ _.
Arguments _instance {A} _.
Arguments constructions {A} _.

(** [Instance(self)], lines 70-81: reading a missing [_instance] raises
    AttributeError, which is caught and answered by constructing. *)
Definition Instance {A : Type} (self : Singleton A) : Result A * Singleton A :=
  match _instance self with
  | Some a => (Ok a, self)
  | None =>
      match _decorated self (constructions self) with
      | Ok a => (Ok a, mkSingleton (_decorated self) (Some a) (S (constructions self)))
      | Raise e => (Raise e, mkSingleton (_decorated self) None (S (constructions self)))
      end
  end.

(** [__call__(self)], lines 83-84. *)
Definition Singleton_call {A : Type} (self : Singleton A) : Result A := Raise TypeError.

(** [n] calls of [Instance] in a row, with what each returned. *)
Fixpoint Instance_times {A : Type} (n : nat) (self : Singleton A)
  : list (Result A) * Singleton A :=
  match n with
  | O => ([], self)
  | S n' =>
      let (r, self') := Instance self in
      let (rs, self'') := Instance_times n' self' in
      (r :: rs, self'')
  end.

(** ** Further notions used in the statements *)

(** Bytes spanned by an inclusive pair, and by a list of pairs. *)
Definition pair_size (r : Z * Z) : Z := snd r - fst r + 1.

Definition bytes_spanned (l : list (Z * Z)) : Z :=
  fold_right (fun r acc => pair_size r + acc) 0 l.

(** Non-empty components of a split path. *)
Definition components (s : list string) : nat :=
  List.length (filter (fun x => 0 <? Z.of_nat (String.length x)) s).

(** Every cached path ends with a slash; no two rows share a path. *)
Definition paths_terminated (w : World) : Prop :=
  forall r, In r (gdrive_ids (session w)) -> last_char (path r) = Some "/"%char.

Definition paths_unique (w : World) : Prop :=
  NoDup (map path (gdrive_ids (session w))).

(** The ways the operations rewrite the rows of [gdrive_ids]: a row is
    appended under the next key, for a slash-terminated path that no row
    has yet; rows are deleted; the path of the row with some key is
    overwritten by a slash-terminated path, which only
    [updateDatabaseOnEdit] does. *)
Inductive cache_change (renames : bool) : list GdriveId -> list GdriveId -> Prop :=
| change_none (rows : list GdriveId) : cache_change renames rows rows
| change_insert (rows : list GdriveId) (g : option PyValue) (p : string) :
    last_char p = Some "/"%char ->
    find (fun r => String.eqb (path r) p) rows = None ->
    cache_change renames rows (rows ++ [mkGdriveId (next_id (map gd_id rows)) g p])%list
| change_delete (rows : list GdriveId) (keep : GdriveId -> bool) :
    cache_change renames rows (filter keep rows)
| change_rename (rows : list GdriveId) (key : Z) (p : string) :
    renames = true ->
    last_char p = Some "/"%char ->
    cache_change renames rows (set_path_of_key key p rows)
| change_trans (a b c : list GdriveId) :
    cache_change renames a b -> cache_change renames b c -> cache_change renames a c.

Definition is_rename (op : Op) : bool :=
  match op with
  | OpUpdateDatabaseOnEdit _ _ => true
  | _ => false
  end.

(** The exception an operation ends with, if any. *)
Definition exception_of {A : Type} (r : Result A) : option Exn :=
  match r with
  | Ok _ => None
  | Raise e => Some e
  end.

Definition run_op_exception (affinity : string -> option Number) (drive : Drive)
           (folder : string) (op : Op) (w : World) : option Exn :=
  match op with
  | OpGetEbooksFolderId => exception_of (fst (getEbooksFolderId affinity drive folder w))
  | OpGetFolderId p => exception_of (fst (getFolderId affinity drive folder p w))
  | OpGetFileFromEbooksFolder p f =>
      exception_of (fst (getFileFromEbooksFolder affinity drive folder p f w))
  | OpDeleteDatabaseOnChange => exception_of (fst (deleteDatabaseOnChange w))
  | OpUpdateDatabaseOnEdit ID p =>
      exception_of (fst (updateDatabaseOnEdit affinity ID p w))
  | OpDeleteDatabaseEntry ID => exception_of (fst (deleteDatabaseEntry affinity ID w))
  | OpGetCoverViaGdrive p =>
      exception_of (fst (get_cover_via_gdrive affinity drive folder p w))
  end.

(** No character of [s] is [c]. *)
Fixpoint free_of (c : ascii) (s : string) : bool :=
  match s with
  | EmptyString => true
  | String a rest => negb (Ascii.eqb a c) && free_of c rest
  end.

(** [q] differs from [b] at a position both have, so that [q] is no prefix
    of any string that starts with [b]. *)
Fixpoint clash (q b : string) : bool :=
  match q, b with
  | String x q', String y b' => if Ascii.eqb x y then clash q' b' else true
  | _, _ => false
  end.

(** Every non-empty suffix of [q] clashes with [b]. *)
Fixpoint suffixes_clash (q b : string) : bool :=
  match q with
  | EmptyString => true
  | String _ q' => clash q b && suffixes_clash q' b
  end.

(** [q] clashes with every non-empty suffix of [b]. *)
Fixpoint clashes_inside (q b : string) : bool :=
  match b with
  | EmptyString => true
  | String _ b' => clash q b && clashes_inside q b'
  end.

(** The rows of [gdrive_ids] went from one world to the next by such
    changes. *)
Definition changes_cache (renames : bool) (w w' : World) : Prop :=
  cache_change renames (gdrive_ids (session w)) (gdrive_ids (session w')).

(** The remote calls of [w'] are those of [w] followed by at most [n]
    listings. *)
Definition lists_at_most (n : nat) (w w' : World) : Prop :=
  exists calls,
    remote_calls w' = (remote_calls w ++ calls)%list /\
    (forall c, In c calls -> is_listing c = true) /\
    (List.length calls <= n)%nat.

(** A remote that lists nothing under the parent 'None' and one folder
    under every other parent. *)
Definition parentless_drive : Drive :=
  mkDrive (fun q => if contains "'None' in parents" q then Ok []
                    else Ok [mkDriveFile "id-found" None])
          (fun _ => Ok tt) (fun _ => Ok tt).

(** The remote id of a row is what the column makes of the id of the first
    file of some listing the remote answers. *)
Definition listed_by (affinity : string -> option Number) (drive : Drive)
           (r : GdriveId) : Prop :=
  exists q f l, ListFile_GetList drive q = Ok (f :: l) /\
                gdrive_id r = Some (to_column affinity (PyStr (file_id f))).

(** * Properties *)

Local Open Scope list_scope.


(** ** The chunk splitter *)

Section SplitterFacts.

Import Ranges.

Variables total chunk : Z.
Hypothesis total_nonneg : 0 <= total.
Hypothesis chunk_pos : 0 < chunk.

Lemma range_up_past_stop (fuel : nat) (p : Z) :
  total <= p -> range_up fuel p total chunk = [].
Proof.
  intros Hp. destruct fuel as [|fuel]; simpl; [reflexivity|].
  destruct (Z.ltb_spec p total); [lia | reflexivity].
Qed.

Lemma range_up_tiles (fuel : nat) :
  forall p, 0 <= p < total -> total - p <= Z.of_nat fuel ->
            tiles p (map (pair_at total chunk) (range_up fuel p total chunk)) total.
Proof.
  induction fuel as [|fuel IH]; intros p Hp Hfuel.
  - simpl in Hfuel. lia.
  - simpl. destruct (Z.ltb_spec p total) as [_|Hge]; [|lia].
    simpl. repeat split; try lia.
    destruct (Z_lt_le_dec (p + chunk) total) as [Hin|Hout].
    + replace (Z.min (total - 1) (p + chunk - 1) + 1) with (p + chunk) by lia.
      apply IH; lia.
    + rewrite range_up_past_stop by lia. simpl. lia.
Qed.

Lemma range_up_bounded (fuel : nat) :
  forall p, 0 <= p -> bounded (map (pair_at total chunk) (range_up fuel p total chunk)) chunk.
Proof.
  induction fuel as [|fuel IH]; intros p Hp r Hr; simpl in Hr; [contradiction|].
  destruct (Z.ltb_spec p total) as [Hlt|Hge]; [|contradiction].
  destruct Hr as [<-|Hr].
  - simpl. lia.
  - apply (IH (p + chunk)); [lia | exact Hr].
Qed.

End SplitterFacts.

Section TilingFacts.

Import Ranges.

Lemma tiles_le (l : list (Z * Z)) :
  forall from upto, tiles from l upto -> from <= upto.
Proof.
  induction l as [|r l IH]; simpl; intros from upto H.
  - lia.
  - destruct H as (Hf & Hle & Hlt & Hrest). lia.
Qed.

Lemma tiles_starts_after (l : list (Z * Z)) :
  forall from upto r, tiles from l upto -> In r l -> from <= fst r.
Proof.
  induction l as [|a l IH]; simpl; intros from upto r H Hin; [contradiction|].
  destruct H as (Hf & Hle & Hlt & Hrest). destruct Hin as [<-|Hin]; [lia|].
  specialize (IH _ _ _ Hrest Hin). lia.
Qed.

Lemma tiles_covers (l : list (Z * Z)) :
  forall from upto, tiles from l upto ->
    forall x, from <= x <= upto - 1 <-> exists r, In r l /\ in_pair x r.
Proof.
  induction l as [|a l IH]; simpl; intros from upto H x.
  - split; [lia | intros (r & [] & _)].
  - destruct H as (Hf & Hle & Hlt & Hrest).
    pose proof (tiles_le _ _ _ Hrest) as Hup.
    specialize (IH _ _ Hrest x). split.
    + intros Hx. destruct (Z_le_gt_dec x (snd a)) as [Hin|Hout].
      * exists a. split; [now left | unfold in_pair; lia].
      * destruct IH as [IH _]. destruct IH as (r & Hr & Hxr); [lia|].
        exists r. split; [now right | exact Hxr].
    + intros (r & [<-|Hr] & Hxr).
      * unfold in_pair in Hxr. lia.
      * destruct IH as [_ IH]. assert (snd a + 1 <= x <= upto - 1) by (apply IH; eauto). lia.
Qed.

Lemma tiles_contiguous (l : list (Z * Z)) :
  forall from upto, tiles from l upto -> contiguous l.
Proof.
  induction l as [|a l IH]; intros from upto H i x y Hx Hy.
  - destruct i; discriminate.
  - destruct H as (Hf & Hle & Hlt & Hrest). destruct i as [|i]; simpl in Hx, Hy.
    + injection Hx as <-. destruct l as [|b l]; [discriminate|].
      injection Hy as <-. simpl in Hrest. lia.
    + exact (IH _ _ Hrest i x y Hx Hy).
Qed.

Lemma tiles_non_overlapping (l : list (Z * Z)) :
  forall from upto, tiles from l upto -> non_overlapping l.
Proof.
  induction l as [|a l IH]; intros from upto H i j x y Hij Hx Hy.
  - destruct i; discriminate.
  - destruct H as (Hf & Hle & Hlt & Hrest). destruct j as [|j]; [lia|].
    simpl in Hy. destruct i as [|i]; simpl in Hx.
    + injection Hx as <-. apply nth_error_In in Hy.
      pose proof (tiles_starts_after _ _ _ _ Hrest Hy). lia.
    + apply (IH _ _ Hrest i j x y); [lia | exact Hx | exact Hy].
Qed.

Lemma tiles_ends_at (l : list (Z * Z)) :
  forall from upto, tiles from l upto -> ends_at l upto.
Proof.
  induction l as [|a l IH]; intros from upto H r Hr.
  - discriminate.
  - destruct H as (Hf & Hle & Hlt & Hrest). destruct l as [|b l].
    + simpl in Hr, Hrest. injection Hr as <-. lia.
    + apply (IH _ _ Hrest). exact Hr.
Qed.

End TilingFacts.

(** C1. For a non-negative total length and a positive chunk size,
    [partial] returns pairs that tile the bytes [0 .. total-1] from the
    left: they are contiguous, do not overlap, cover exactly that interval,
    span at most [chunk] bytes each, and the last one ends at [total-1];
    a total of 0 gives the empty list, and [partial(10, 4)] is
    [[0,3],[4,7],[8,9]]. *)
Theorem partial_splits_exactly (total chunk : Z) :
  0 <= total -> 0 < chunk ->
  exists l,
    partial total chunk = Ok l /\
    Ranges.tiles 0 l total /\
    Ranges.contiguous l /\
    Ranges.non_overlapping l /\
    Ranges.covers l total /\
    Ranges.bounded l chunk /\
    Ranges.ends_at l total /\
    (total = 0 -> l = []) /\
    partial 10 4 = Ok [(0, 3); (4, 7); (8, 9)].
Proof.
  intros Ht Hc. unfold partial, range.
  destruct (Z.eqb_spec chunk 0) as [|_]; [lia|].
  destruct (Z.ltb_spec 0 chunk) as [_|]; [|lia].
  eexists. split; [reflexivity|].
  assert (Htiles : Ranges.tiles 0
            (map (pair_at total chunk)
                 (range_up (Z.to_nat (total - 0)) 0 total chunk)) total).
  { destruct (Z.eq_dec total 0) as [->|Hnz].
    - simpl. reflexivity.
    - apply range_up_tiles; lia. }
  split; [exact Htiles|].
  split; [exact (tiles_contiguous _ _ _ Htiles)|].
  split; [exact (tiles_non_overlapping _ _ _ Htiles)|].
  split; [exact (tiles_covers _ _ _ Htiles)|].
  split; [apply range_up_bounded; lia|].
  split; [exact (tiles_ends_at _ _ _ Htiles)|].
  split; [intros ->; reflexivity | reflexivity].
Qed.

Lemma partial_splits_exactly_witness :
  exists l, partial 10 4 = Ok l /\ Ranges.covers l 10 /\ Ranges.bounded l 4.
Proof.
  destruct (partial_splits_exactly 10 4) as (l & H1 & _ & _ & _ & H4 & H5 & _);
    [lia | lia |].
  exists l. split; [exact H1|]. split; [exact H4 | exact H5].
Defined.

(** ** The streaming download *)

Section DownloadFacts.

Variable request : string -> string -> HttpResult.
Variable url : string.

Lemma drain_chunks_requested (s : list (Z * Z)) :
  forall byte content,
    In (byte, content) (chunks (drain request url s)) ->
    In byte (requested (drain request url s)) /\
    request url (range_header byte) = HttpResponse 206 content.
Proof.
  induction s as [|b rest IH]; intros byte content Hin; simpl in *; [contradiction|].
  destruct (request url (range_header b)) as [status c|e] eqn:Hreq;
    [|simpl in Hin; contradiction].
  destruct (Z.eqb_spec status 206) as [->|Hne]; simpl in *; [|contradiction].
  destruct Hin as [Heq|Hin].
  - injection Heq as <- <-. split; [now left | exact Hreq].
  - destruct (IH _ _ Hin) as [H1 H2]. split; [now right | exact H2].
Qed.

Lemma drain_requested_chunks (s : list (Z * Z)) :
  forall byte content,
    In byte (requested (drain request url s)) ->
    request url (range_header byte) = HttpResponse 206 content ->
    In (byte, content) (chunks (drain request url s)).
Proof.
  induction s as [|b rest IH]; intros byte content Hin Hok; simpl in *; [contradiction|].
  destruct (request url (range_header b)) as [status c|e] eqn:Hreq.
  - destruct (Z.eqb_spec status 206) as [->|Hne]; simpl in *.
    + destruct Hin as [<-|Hin].
      * left. rewrite Hreq in Hok. injection Hok as <-. reflexivity.
      * right. apply IH; assumption.
    + destruct Hin as [<-|[]]. rewrite Hreq in Hok. injection Hok as Hs _. contradiction.
  - simpl in Hin. destruct Hin as [<-|[]]. rewrite Hreq in Hok. discriminate.
Qed.

Lemma drain_stops_at_refusal (before : list (Z * Z)) :
  forall byte after status content,
    (forall b, In b before -> answers_206 request url b) ->
    request url (range_header byte) = HttpResponse status content ->
    status <> 206 ->
    let d := drain request url (before ++ byte :: after)%list in
    map fst (chunks d) = before /\
    requested d = (before ++ [byte])%list /\
    warnings d = [LogWarning "An error occurred: %s" status] /\
    raised d = None.
Proof.
  induction before as [|b before IH]; intros byte after status content Hall Hreq Hne; simpl.
  - rewrite Hreq. destruct (Z.eqb_spec status 206); [contradiction|]. simpl. auto.
  - destruct (Hall b (or_introl eq_refl)) as (c & Hc). rewrite Hc. simpl.
    destruct (IH byte after status content) as (H1 & H2 & H3 & H4); auto.
    { intros b' Hb'. apply Hall. now right. }
    rewrite H1, H2, H3, H4. auto.
Qed.

Lemma drain_all_206 (s : list (Z * Z)) :
  (forall b, In b s -> answers_206 request url b) ->
  let d := drain request url s in
  map fst (chunks d) = s /\ requested d = s /\ warnings d = [] /\ raised d = None.
Proof.
  induction s as [|b rest IH]; intros Hall; simpl; [auto|].
  destruct (Hall b (or_introl eq_refl)) as (c & Hc). rewrite Hc. simpl.
  destruct IH as (H1 & H2 & H3 & H4).
  { intros b' Hb'. apply Hall. now right. }
  rewrite H1, H2, H3, H4. auto.
Qed.

End DownloadFacts.

(** C5. Draining the generator of [do_gdrive_download] over the ranges [s]:
    a range's content is among the yielded chunks exactly when that range
    was requested and answered with status 206; at the first range answered
    with another status one warning is logged and the stream ends without an
    exception, with the chunks of the ranges before it and nothing after;
    when every range is answered with 206 all chunks are yielded in order. *)
Theorem stream_yields_until_first_non_206
  (request : string -> string -> HttpResult) (url : string) (s : list (Z * Z)) :
  (forall byte content,
      In (byte, content) (chunks (drain request url s)) <->
      In byte (requested (drain request url s)) /\
      request url (range_header byte) = HttpResponse 206 content) /\
  (forall before byte after status content,
      s = (before ++ byte :: after)%list ->
      (forall b, In b before -> answers_206 request url b) ->
      request url (range_header byte) = HttpResponse status content ->
      status <> 206 ->
      stream_next request url (byte :: after)
        = Return [LogWarning "An error occurred: %s" status] /\
      map fst (chunks (drain request url s)) = before /\
      requested (drain request url s) = (before ++ [byte])%list /\
      warnings (drain request url s) = [LogWarning "An error occurred: %s" status] /\
      raised (drain request url s) = None) /\
  ((forall b, In b s -> answers_206 request url b) ->
   map fst (chunks (drain request url s)) = s /\
   requested (drain request url s) = s /\
   warnings (drain request url s) = [] /\
   raised (drain request url s) = None).
Proof.
  split; [|split].
  - intros byte content. split.
    + apply drain_chunks_requested.
    + intros [H1 H2]. now apply drain_requested_chunks.
  - intros before byte after status content -> Hall Hreq Hne. split.
    + simpl. rewrite Hreq. destruct (Z.eqb_spec status 206); [contradiction|reflexivity].
    + exact (drain_stops_at_refusal request url before byte after status content
                                    Hall Hreq Hne).
  - apply drain_all_206.
Qed.

Lemma stream_yields_until_first_non_206_witness :
  do_gdrive_download 3000000 = Ok [(0, 1048575); (1048576, 2097151); (2097152, 2999999)] /\
  map fst (chunks (drain Examples.flaky_request "u"
                         [(0, 1048575); (1048576, 2097151); (2097152, 2999999)]))
    = [(0, 1048575)] /\
  raised (drain Examples.flaky_request "u"
                [(0, 1048575); (1048576, 2097151); (2097152, 2999999)]) = None.
Proof.
  split; [vm_compute; reflexivity|].
  destruct (stream_yields_until_first_non_206 Examples.flaky_request "u"
              [(0, 1048575); (1048576, 2097151); (2097152, 2999999)]) as (_ & H & _).
  destruct (H [(0, 1048575)] (1048576, 2097151) [(2097152, 2999999)] 403 "Forbidden")
    as (_ & H1 & _ & _ & H4).
  - reflexivity.
  - intros b [<-|[]]. eexists. vm_compute. reflexivity.
  - vm_compute. reflexivity.
  - lia.
  - split; assumption.
Defined.

(** ** The schema migration *)

Section MigrateFacts.

Context {DB : Type} (engine : Engine DB).

Lemma migrate_loop_skips (rows : list string) (db : DB) :
  no_standalone_constraint rows -> migrate_loop engine rows db = Ok db.
Proof.
  induction rows as [|sql rest IH]; intros Hrows; simpl; [reflexivity|].
  destruct (contains "CREATE TABLE gdrive_ids" sql) eqn:Hcreate.
  - unfold currUniqueConstraint.
    rewrite (Hrows sql (or_introl eq_refl) Hcreate). reflexivity.
  - apply IH. intros s Hs. apply Hrows. now right.
Qed.

End MigrateFacts.

(** C6. On a database whose [gdrive_ids] table no longer carries the
    standalone [UNIQUE (gdrive_id)] constraint, [migrate] sends no statement
    for that table: it only creates [permissions_added] when that table is
    missing, and when it is present, as after any earlier run, the run
    returns the database unchanged and without error. *)
Theorem migrate_twice_is_noop {DB : Type} (engine : Engine DB) (db : DB) :
  (forall db', no_standalone_constraint (select_table_sql engine db')
               -> migrate engine db'
                  = if has_table engine db' "permissions_added" then Ok db'
                    else and_then (create_permissions_added engine db')
                                  (fun d => migrate_loop engine (select_table_sql engine d) d)) /\
  (no_standalone_constraint (select_table_sql engine db) ->
   has_table engine db "permissions_added" = true ->
   migrate engine db = Ok db).
Proof.
  split.
  - intros db' Hrows. unfold migrate.
    destruct (has_table engine db' "permissions_added"); [|reflexivity].
    simpl. now apply migrate_loop_skips.
  - intros Hrows Hperm. unfold migrate. rewrite Hperm. simpl.
    now apply migrate_loop_skips.
Qed.

Lemma migrate_twice_is_noop_witness :
  migrate Examples.sqlite Examples.legacy_db = Ok Examples.widened_db /\
  migrate Examples.sqlite Examples.widened_db = Ok Examples.widened_db.
Proof.
  split; [vm_compute; reflexivity|].
  apply (proj2 (migrate_twice_is_noop Examples.sqlite Examples.widened_db)).
  - intros sql [<-|[<-|[]]] H; vm_compute in H |- *; congruence.
  - vm_compute. reflexivity.
Defined.

(** ** Maintenance of the path cache *)

Lemma find_app_found {A : Type} (f : A -> bool) (l l' : list A) (a : A) :
  find f l = Some a -> find f (l ++ l') = Some a.
Proof.
  induction l as [|x l IH]; simpl; [discriminate|].
  destruct (f x); [trivial | exact IH].
Qed.

Lemma find_app_missing {A : Type} (f : A -> bool) (l l' : list A) :
  find f l = None -> find f (l ++ l') = find f l'.
Proof.
  induction l as [|x l IH]; simpl; [trivial|].
  destruct (f x); [discriminate | exact IH].
Qed.

Lemma find_none_iff {A : Type} (f : A -> bool) (l : list A) :
  find f l = None <-> forall a, In a l -> f a = false.
Proof.
  induction l as [|x l IH]; simpl.
  - split; [intros _ a [] | trivial].
  - destruct (f x) eqn:Hx.
    + split; [discriminate|]. intros H. rewrite (H x (or_introl eq_refl)) in Hx. discriminate.
    + rewrite IH. split.
      * intros H a [<-|Ha]; auto.
      * intros H a Ha. apply H. now right.
Qed.

Lemma slash_terminated_ok (p : string) :
  p <> EmptyString ->
  exists q, slash_terminated p = Ok q /\ last_char q = Some "/"%char /\
            (q = p \/ q = (p ++ "/")%string).
Proof.
  intros Hp. unfold slash_terminated.
  assert (Hlast : forall s, last_char (s ++ "/")%string = Some "/"%char).
  { induction s as [|c s IH]; [reflexivity|].
    simpl. destruct (s ++ "/")%string eqn:E; [destruct s; discriminate | exact IH]. }
  destruct (last_char p) as [c|] eqn:Hc.
  - destruct (Ascii.eqb_spec c "/"%char) as [->|Hne].
    + exists p. auto.
    + exists (p ++ "/")%string. auto.
  - exfalso. clear Hlast. induction p as [|c p IH]; [congruence|].
    simpl in Hc. destruct p; [discriminate|]. apply IH; [discriminate | exact Hc].
Qed.

Lemma Number_eqb_eq (a b : Number) : Number_eqb a b = true <-> a = b.
Proof.
  destruct a as [x|x], b as [y|y]; simpl; split; intros H; try discriminate.
  - apply Z.eqb_eq in H. now subst.
  - injection H as ->. apply Z.eqb_refl.
  - apply String.eqb_eq in H. now subst.
  - injection H as ->. apply String.eqb_refl.
Qed.

Lemma PyValue_eqb_eq (a b : PyValue) : PyValue_eqb a b = true <-> a = b.
Proof.
  destruct a as [x|x], b as [y|y]; simpl; split; intros H; try discriminate.
  - apply Number_eqb_eq in H. now subst.
  - injection H as ->. now apply Number_eqb_eq.
  - apply String.eqb_eq in H. now subst.
  - injection H as ->. apply String.eqb_refl.
Qed.

Lemma opt_value_eqb_eq (a b : option PyValue) : opt_value_eqb a b = true <-> a = b.
Proof.
  destruct a as [x|], b as [y|]; simpl; split; intros H; try discriminate; trivial.
  - apply PyValue_eqb_eq in H. now subst.
  - injection H as ->. now apply PyValue_eqb_eq.
Qed.

Lemma to_column_idempotent (affinity : string -> option Number) (v : PyValue) :
  to_column affinity (to_column affinity v) = to_column affinity v.
Proof.
  destruct v as [n|t]; simpl; [reflexivity|].
  destruct (affinity t) eqn:E; simpl; [reflexivity|]. now rewrite E.
Qed.

Lemma stored_idempotent (affinity : string -> option Number) (v : option PyValue) :
  stored affinity (stored affinity v) = stored affinity v.
Proof.
  destruct v as [v|]; simpl; [|reflexivity]. now rewrite to_column_idempotent.
Qed.

Lemma same_id_stored (affinity : string -> option Number) (v : option PyValue) :
  same_id affinity (stored affinity v) v = true.
Proof. now apply opt_value_eqb_eq. Qed.

(** *** The order of the index *)

Lemma ascii_compare_lt_trans (a b c : ascii) :
  Ascii.compare a b = Lt -> Ascii.compare b c = Lt -> Ascii.compare a c = Lt.
Proof.
  unfold Ascii.compare. rewrite !N.compare_lt_iff. apply N.lt_trans.
Qed.

Lemma string_compare_lt_trans (a : string) :
  forall b c, String.compare a b = Lt -> String.compare b c = Lt ->
              String.compare a c = Lt.
Proof.
  induction a as [|x a IH]; intros [|y b] [|z c]; simpl; try congruence.
  destruct (Ascii.compare x y) eqn:Hxy; try discriminate;
    destruct (Ascii.compare y z) eqn:Hyz; try discriminate; intros Hab Hbc.
  - apply Ascii.compare_eq_iff in Hxy, Hyz. subst.
    assert (Hzz : Ascii.compare z z = Eq) by apply N.compare_refl.
    rewrite Hzz. now apply (IH b c).
  - apply Ascii.compare_eq_iff in Hxy. subst. now rewrite Hyz.
  - apply Ascii.compare_eq_iff in Hyz. subst. now rewrite Hxy.
  - now rewrite (ascii_compare_lt_trans x y z Hxy Hyz).
Qed.

Lemma string_compare_refl (a : string) : String.compare a a = Eq.
Proof.
  induction a as [|x a IH]; simpl; [reflexivity|].
  assert (Hxx : Ascii.compare x x = Eq) by apply N.compare_refl.
  now rewrite Hxx.
Qed.

Lemma index_before_total (a b : GdriveId) :
  index_before a b = false -> index_before b a = true.
Proof.
  unfold index_before. rewrite (String.compare_antisym (path a) (path b)).
  destruct (String.compare (path b) (path a)); simpl; try congruence.
  intros H. apply Z.leb_gt in H. apply Z.leb_le. lia.
Qed.

Lemma index_before_refl (a : GdriveId) : index_before a a = true.
Proof. unfold index_before. rewrite string_compare_refl. apply Z.leb_refl. Qed.

Lemma index_before_trans (a b c : GdriveId) :
  index_before a b = true -> index_before b c = true -> index_before a c = true.
Proof.
  unfold index_before.
  destruct (String.compare (path a) (path b)) eqn:Hab; try discriminate;
    destruct (String.compare (path b) (path c)) eqn:Hbc; try discriminate; intros H1 H2.
  - apply String.compare_eq_iff in Hab, Hbc. rewrite Hab, Hbc, string_compare_refl.
    apply Z.leb_le in H1, H2. apply Z.leb_le. lia.
  - apply String.compare_eq_iff in Hab. now rewrite Hab, Hbc.
  - apply String.compare_eq_iff in Hbc. now rewrite <- Hbc, Hab.
  - now rewrite (string_compare_lt_trans _ _ _ Hab Hbc).
Qed.

Lemma index_first_none (rows : list GdriveId) : index_first rows = None -> rows = [].
Proof.
  destruct rows as [|r rest]; [trivial|]. simpl.
  destruct (index_first rest); [destruct (index_before r g)|]; discriminate.
Qed.

(** [index_first] returns a row of the list that is before every other. *)
Lemma index_first_least (rows : list GdriveId) :
  forall m, index_first rows = Some m ->
            In m rows /\ forall r, In r rows -> index_before m r = true.
Proof.
  induction rows as [|r0 rest IH]; intros m Hm; simpl in Hm; [discriminate|].
  destruct (index_first rest) as [m0|] eqn:Hrest.
  - destruct (IH m0 eq_refl) as (Hin & Hleast).
    destruct (index_before r0 m0) eqn:Hb; injection Hm as <-.
    + split; [now left|]. intros r [<-|Hr].
      * apply index_before_refl.
      * apply (index_before_trans r0 m0 r Hb). now apply Hleast.
    + split; [now right|]. intros r [<-|Hr]; [now apply index_before_total | now apply Hleast].
  - injection Hm as <-. apply index_first_none in Hrest. subst rest.
    split; [now left|]. intros r [<-|[]].
    apply index_before_refl.
Qed.

Section IndexFacts.

Variable affinity : string -> option Number.

Lemma row_for_id_none (ID : option PyValue) (w : World) :
  row_for_id affinity ID w = None <->
  forall r, In r (gdrive_ids (session w)) -> same_id affinity (gdrive_id r) ID = false.
Proof.
  unfold row_for_id. split.
  - intros H r Hr. apply index_first_none in H.
    destruct (same_id affinity (gdrive_id r) ID) eqn:E; [|reflexivity].
    assert (Hin : In r (filter (fun r => same_id affinity (gdrive_id r) ID)
                               (gdrive_ids (session w)))) by (apply filter_In; auto).
    rewrite H in Hin. destruct Hin.
  - intros H.
    assert (Hnil : filter (fun r => same_id affinity (gdrive_id r) ID)
                          (gdrive_ids (session w)) = []).
    { induction (gdrive_ids (session w)) as [|x l IH]; [reflexivity|]. simpl.
      rewrite (H x (or_introl eq_refl)). apply IH. intros r Hr. apply H. now right. }
    now rewrite Hnil.
Qed.

(** The row a lookup by remote id returns holds that id and comes first in
    the index among the rows that do. *)
Lemma row_for_id_least (ID : option PyValue) (w : World) (row : GdriveId) :
  row_for_id affinity ID w = Some row ->
  In row (gdrive_ids (session w)) /\
  same_id affinity (gdrive_id row) ID = true /\
  forall r, In r (gdrive_ids (session w)) -> same_id affinity (gdrive_id r) ID = true ->
            index_before row r = true.
Proof.
  unfold row_for_id. intros H. apply index_first_least in H. destruct H as (Hin & Hleast).
  apply filter_In in Hin. destruct Hin as (Hin & Hid). repeat split; try assumption.
  intros r Hr Hrid. apply Hleast. apply filter_In. auto.
Qed.

(** A row that holds the id, is strictly before the others that do, is the
    row the lookup returns. *)
Lemma row_for_id_found (ID : option PyValue) (w : World)
      (before after : list GdriveId) (row : GdriveId) :
  gdrive_ids (session w) = before ++ row :: after ->
  same_id affinity (gdrive_id row) ID = true ->
  (forall r, In r (before ++ after) -> same_id affinity (gdrive_id r) ID = true ->
             index_before r row = false) ->
  row_for_id affinity ID w = Some row.
Proof.
  intros Hrows Hid Hothers.
  destruct (row_for_id affinity ID w) as [m|] eqn:Hm.
  - destruct (row_for_id_least ID w m Hm) as (Hin & Hmid & Hleast).
    rewrite Hrows in Hin. apply in_app_or in Hin. simpl in Hin.
    assert (Hrow : index_before m row = true).
    { apply Hleast; [|exact Hid]. rewrite Hrows. apply in_or_app. right. now left. }
    destruct Hin as [Hin|[<-|Hin]]; [|reflexivity|].
    + rewrite (Hothers m) in Hrow; [discriminate | apply in_or_app; now left | exact Hmid].
    + rewrite (Hothers m) in Hrow; [discriminate | apply in_or_app; now right | exact Hmid].
  - rewrite row_for_id_none in Hm. rewrite (Hm row) in Hid; [discriminate|].
    rewrite Hrows. apply in_or_app. right. now left.
Qed.

Lemma set_path_of_key_others (key : Z) (p : string) (rows : list GdriveId) :
  (forall r, In r rows -> gd_id r <> key) -> set_path_of_key key p rows = rows.
Proof.
  induction rows as [|x rows IH]; intros H; simpl; [reflexivity|].
  destruct (Z.eqb_spec (gd_id x) key) as [E|_].
  - exfalso. exact (H x (or_introl eq_refl) E).
  - f_equal. apply IH. intros r Hr. apply H. now right.
Qed.

Lemma set_path_of_key_at (p : string) (before after : list GdriveId) (row : GdriveId) :
  (forall r, In r (before ++ after) -> gd_id r <> gd_id row) ->
  set_path_of_key (gd_id row) p (before ++ row :: after)
  = before ++ mkGdriveId (gd_id row) (gdrive_id row) p :: after.
Proof.
  intros H. unfold set_path_of_key. rewrite map_app. simpl. rewrite Z.eqb_refl.
  fold (set_path_of_key (gd_id row) p before). fold (set_path_of_key (gd_id row) p after).
  rewrite !set_path_of_key_others; [reflexivity| |];
    intros r Hr; apply H; apply in_or_app; [now right | now left].
Qed.

(** The constraint check in terms of the rows: some other row holds the
    same remote id, which is not NULL, and the path. *)
Lemma breaks_gdrive_path_uc_iff (row : GdriveId) (p : string) (rows : list GdriveId) :
  breaks_gdrive_path_uc row p rows = true <->
  exists r, In r rows /\ gd_id r <> gd_id row /\ gdrive_id r = gdrive_id row /\
            gdrive_id r <> None /\ path r = p.
Proof.
  unfold breaks_gdrive_path_uc. rewrite existsb_exists. split.
  - intros (r & Hin & H). apply andb_prop in H. destruct H as (H & Hp).
    apply andb_prop in H. destruct H as (Hk & Hg).
    exists r. split; [exact Hin|].
    split; [intros E; rewrite E, Z.eqb_refl in Hk; discriminate|].
    destruct (gdrive_id r) as [a|], (gdrive_id row) as [b|]; try discriminate.
    apply PyValue_eqb_eq in Hg. subst. apply String.eqb_eq in Hp.
    repeat split; [discriminate | exact Hp].
  - intros (r & Hin & Hk & Hg & Hnn & Hp). exists r. split; [exact Hin|].
    apply Z.eqb_neq in Hk. rewrite Hk. simpl.
    rewrite <- Hg. destruct (gdrive_id r) as [a|]; [|congruence].
    replace (PyValue_eqb a a) with true by (symmetry; now apply PyValue_eqb_eq).
    simpl. now apply String.eqb_eq.
Qed.

End IndexFacts.

(** C7 (as the code has it). [updateDatabaseOnEdit(ID, newPath)] on an
    empty [newPath] raises IndexError, whether or not a row holds [ID].
    Otherwise the stored path is [newPath] with a trailing slash added when
    missing, and: when no row holds [ID], as the column compares it,
    nothing changes at all; when some do, the row renamed is the one first
    in the order of the index, that is with the least path.  Its path is
    overwritten and the session committed, unless another row with that
    remote id already has the new path: then the commit raises
    IntegrityError and nothing is written. *)
Theorem updateDatabaseOnEdit_renames_or_skips
  (affinity : string -> option Number) (ID : option PyValue) (newPath : string)
  (w : World) :
  (newPath = EmptyString ->
   updateDatabaseOnEdit affinity ID newPath w = (Raise IndexError, w)) /\
  (newPath <> EmptyString ->
   exists sqlCheckPath,
     slash_terminated newPath = Ok sqlCheckPath /\
     last_char sqlCheckPath = Some "/"%char /\
     (sqlCheckPath = newPath \/ sqlCheckPath = (newPath ++ "/")%string) /\
     ((forall r, In r (gdrive_ids (session w)) ->
                 same_id affinity (gdrive_id r) ID = false) ->
      updateDatabaseOnEdit affinity ID newPath w = (Ok tt, w)) /\
     (forall before row after,
         gdrive_ids (session w) = (before ++ row :: after)%list ->
         same_id affinity (gdrive_id row) ID = true ->
         (forall r, In r (before ++ after) -> gd_id r <> gd_id row) ->
         (forall r, In r (before ++ after) ->
                    same_id affinity (gdrive_id r) ID = true ->
                    index_before r row = false) ->
         ((forall r, In r (before ++ after) -> gdrive_id r = gdrive_id row ->
                     gdrive_id r = None \/ path r <> sqlCheckPath) ->
          let t := mkTables
                     (before ++ mkGdriveId (gd_id row) (gdrive_id row) sqlCheckPath
                             :: after)%list
                     (permissions_added (session w)) in
          updateDatabaseOnEdit affinity ID newPath w
          = (Ok tt, mkWorld t t (remote_calls w) (log w))) /\
         (forall r, In r (before ++ after) -> gdrive_id r = gdrive_id row ->
                    gdrive_id r <> None -> path r = sqlCheckPath ->
                    updateDatabaseOnEdit affinity ID newPath w
                    = (Raise (DatabaseError "IntegrityError"), w)))).
Proof.
  split.
  - intros ->. reflexivity.
  - intros Hne. destruct (slash_terminated_ok newPath Hne) as (q & Hq & Hlast & Hform).
    exists q. split; [exact Hq|]. split; [exact Hlast|]. split; [exact Hform|]. split.
    + intros Hnone. apply row_for_id_none in Hnone. unfold row_for_id in Hnone.
      unfold updateDatabaseOnEdit, bind, lift, query_gdrive_id. rewrite Hq, Hnone.
      reflexivity.
    + intros before row after Hrows Hid Hkeys Hfirst.
      pose proof (row_for_id_found affinity ID w before after row Hrows Hid Hfirst) as Hrow.
      unfold row_for_id in Hrow.
      assert (Hothers : forall r, In r (gdrive_ids (session w)) -> gd_id r <> gd_id row ->
                                  In r (before ++ after)).
      { intros r Hr Hk. rewrite Hrows in Hr. apply in_app_or in Hr. apply in_or_app.
        destruct Hr as [Hr|[<-|Hr]]; [now left | congruence | now right]. }
      split.
      * intros Hfree.
        unfold updateDatabaseOnEdit, bind, lift, query_gdrive_id. rewrite Hq, Hrow.
        destruct (breaks_gdrive_path_uc row q (gdrive_ids (session w))) eqn:Hb.
        { apply breaks_gdrive_path_uc_iff in Hb.
          destruct Hb as (r & Hr & Hk & Hg & Hnn & Hp).
          destruct (Hfree r (Hothers r Hr Hk) Hg); contradiction. }
        unfold session_commit, set_gdrive_ids. simpl.
        rewrite Hrows, set_path_of_key_at by exact Hkeys. reflexivity.
      * intros r Hr Hg Hnn Hp.
        unfold updateDatabaseOnEdit, bind, lift, query_gdrive_id. rewrite Hq, Hrow.
        replace (breaks_gdrive_path_uc row q (gdrive_ids (session w))) with true;
          [reflexivity|].
        symmetry. apply breaks_gdrive_path_uc_iff. exists r.
        split; [rewrite Hrows; apply in_app_or in Hr; apply in_or_app;
                destruct Hr; [now left | right; now right]|].
        split; [now apply Hkeys|]. auto.
Qed.

Lemma updateDatabaseOnEdit_renames_or_skips_witness :
  updateDatabaseOnEdit Examples.affinity (Some (PyStr "id-unknown")) "Books/Renamed"
                       Examples.root_cached
  = (Ok tt, Examples.root_cached) /\
  gdrive_ids (session (snd (updateDatabaseOnEdit Examples.affinity
                              (Some (PyStr Examples.id_books)) "Novels"
                              Examples.held_twice_cached)))
  = [mkGdriveId 1 (Some (PyStr Examples.id_books)) "Shelf/";
     mkGdriveId 2 (Some (PyStr Examples.id_books)) "Novels/"].
Proof.
  destruct (proj2 (updateDatabaseOnEdit_renames_or_skips Examples.affinity
                     (Some (PyStr "id-unknown")) "Books/Renamed" Examples.root_cached))
    as (q & _ & _ & _ & Hskip & _); [discriminate|].
  destruct (proj2 (updateDatabaseOnEdit_renames_or_skips Examples.affinity
                     (Some (PyStr Examples.id_books)) "Novels"
                     Examples.held_twice_cached))
    as (q' & Hq' & _ & _ & _ & Hren); [discriminate|].
  injection Hq' as <-.
  split.
  - apply Hskip. intros r [<-|[]]. reflexivity.
  - destruct (Hren [mkGdriveId 1 (Some (PyStr Examples.id_books)) "Shelf/"]
                   (mkGdriveId 2 (Some (PyStr Examples.id_books)) "Books/") [])
      as (Hok & _).
    + reflexivity.
    + reflexivity.
    + intros r [<-|[]]. discriminate.
    + intros r [<-|[]] _. reflexivity.
    + rewrite Hok; [reflexivity|]. intros r [<-|[]] _. right. discriminate.
Defined.

(** The remote id "id-books" is cached under "Shelf/" and under "Books/".
    Renaming it to "Shelf" picks the row of "Books/", the first in the
    index, whose new path "Shelf/" the other row already has: the call
    raises and no path is overwritten.  And on an empty new path the call
    raises for a remote id that is not cached. *)
Lemma colliding_rename_raises :
  row_for_id Examples.affinity (Some (PyStr Examples.id_books))
             Examples.held_twice_cached
  = Some (mkGdriveId 2 (Some (PyStr Examples.id_books)) "Books/") /\
  updateDatabaseOnEdit Examples.affinity (Some (PyStr Examples.id_books)) "Shelf"
                       Examples.held_twice_cached
  = (Raise (DatabaseError "IntegrityError"), Examples.held_twice_cached) /\
  row_for_id Examples.affinity (Some (PyStr "id-unknown")) Examples.root_cached = None /\
  updateDatabaseOnEdit Examples.affinity (Some (PyStr "id-unknown")) EmptyString
                       Examples.root_cached
  = (Raise IndexError, Examples.root_cached).
Proof.
  repeat split; vm_compute; reflexivity.
Qed.

(** C10. [deleteDatabaseOnChange] and [deleteDatabaseEntry] rewrite only
    the [gdrive_ids] rows: the first empties that table, the second drops
    the rows with the given remote id, and both leave the rows of
    [permissions_added] as they were, in the session and in what is
    committed, so that the recorded grants are found as before. *)
Theorem invalidation_keeps_permissions
  (affinity : string -> option Number) (ID : option PyValue) (w : World) :
  (fst (deleteDatabaseOnChange w) = Ok tt /\
   gdrive_ids (session (snd (deleteDatabaseOnChange w))) = [] /\
   permissions_added (session (snd (deleteDatabaseOnChange w)))
   = permissions_added (session w) /\
   permissions_added (committed (snd (deleteDatabaseOnChange w)))
   = permissions_added (session w)) /\
  (fst (deleteDatabaseEntry affinity ID w) = Ok tt /\
   gdrive_ids (session (snd (deleteDatabaseEntry affinity ID w)))
   = filter (fun r => negb (same_id affinity (gdrive_id r) ID)) (gdrive_ids (session w)) /\
   permissions_added (session (snd (deleteDatabaseEntry affinity ID w)))
   = permissions_added (session w) /\
   permissions_added (committed (snd (deleteDatabaseEntry affinity ID w)))
   = permissions_added (session w)) /\
  (forall fid,
      permission_for affinity fid (snd (deleteDatabaseOnChange w))
      = permission_for affinity fid w /\
      permission_for affinity fid (snd (deleteDatabaseEntry affinity ID w))
      = permission_for affinity fid w).
Proof.
  repeat split.
Qed.

(** ** Root discovery *)

Section RootFacts.

Variable affinity : string -> option Number.
Variable drive : Drive.
Variable folder : string.

Lemma getEbooksFolderId_cached (w : World) (r : GdriveId) :
  row_for_path "/" w = Some r ->
  getEbooksFolderId affinity drive folder w = (Ok (gdrive_id r), w).
Proof.
  intros Hr. unfold getEbooksFolderId, bind, query_path.
  unfold row_for_path in Hr. rewrite Hr. reflexivity.
Qed.

Lemma getEbooksFolderId_discovers (w : World) :
  row_for_path "/" w = None ->
  getEbooksFolderId affinity drive folder w
  = (Ok None, after_root_discovery affinity drive folder w).
Proof.
  intros Hr. unfold getEbooksFolderId, bind, query_path.
  unfold row_for_path in Hr. rewrite Hr.
  unfold try_except, bind, getEbooksFolder, getFolderInFolder, bind, ListFile.
  unfold after_root_discovery, discovered_root, root_query.
  destruct (ListFile_GetList drive (folder_query (Some (PyStr "root")) folder))
    as [[|f l]|e]; reflexivity.
Qed.

Lemma after_root_discovery_keeps (w : World) (p : string) (r : GdriveId) :
  row_for_path p w = Some r ->
  row_for_path p (after_root_discovery affinity drive folder w) = Some r.
Proof.
  unfold row_for_path, after_root_discovery. simpl. apply find_app_found.
Qed.

Lemma after_root_discovery_has_root (w : World) :
  row_for_path "/" w = None ->
  row_for_path "/" (after_root_discovery affinity drive folder w)
  = Some (mkGdriveId (next_id (map gd_id (gdrive_ids (session w))))
                     (stored affinity (discovered_root drive folder)) "/").
Proof.
  unfold row_for_path, after_root_discovery. simpl. intros H.
  rewrite find_app_missing by exact H. reflexivity.
Qed.

Lemma getFolderId_cached (w : World) (p q : string) (root row : GdriveId) :
  slash_terminated p = Ok q ->
  row_for_path "/" w = Some root ->
  row_for_path q w = Some row ->
  getFolderId affinity drive folder p w = (Ok (gdrive_id row), w).
Proof.
  intros Hq Hroot Hrow. unfold getFolderId, bind.
  rewrite (getEbooksFolderId_cached w root Hroot).
  unfold getFolderId_body, bind, lift, query_path. rewrite Hq.
  unfold row_for_path in Hrow. rewrite Hrow. reflexivity.
Qed.

End RootFacts.

(** C3 (as the code has it). When the slash-terminated path has a row in
    the cache, [getFolderId] returns the remote id of the first such row.
    It does so without any remote call and without touching the cache when
    a row for "/" is cached as well; when there is no row for "/", root
    discovery runs first, issues exactly one listing and adds the "/" row,
    and the same remote id is returned afterwards. *)
Theorem getFolderId_exact_match
  (affinity : string -> option Number) (drive : Drive) (folder path p : string)
  (w : World) (row : GdriveId) :
  slash_terminated path = Ok p ->
  row_for_path p w = Some row ->
  (forall root, row_for_path "/" w = Some root ->
                getFolderId affinity drive folder path w = (Ok (gdrive_id row), w)) /\
  (row_for_path "/" w = None ->
   getFolderId affinity drive folder path w
   = (Ok (gdrive_id row), after_root_discovery affinity drive folder w) /\
   remote_calls (after_root_discovery affinity drive folder w)
   = remote_calls w ++ [CallListFile (root_query folder)]).
Proof.
  intros Hp Hrow. split.
  - intros root Hroot.
    exact (getFolderId_cached affinity drive folder w path p root row Hp Hroot Hrow).
  - intros Hroot. split; [|reflexivity]. unfold getFolderId, bind.
    rewrite (getEbooksFolderId_discovers affinity drive folder w Hroot).
    unfold getFolderId_body, bind, lift, query_path. rewrite Hp.
    pose proof (after_root_discovery_keeps affinity drive folder w p row Hrow) as Hkeep.
    unfold row_for_path in Hkeep. rewrite Hkeep. reflexivity.
Qed.

Lemma getFolderId_exact_match_witness :
  getFolderId Examples.affinity Examples.tree_drive "Calibre" "/" Examples.root_cached
  = (Ok (Some (PyStr Examples.id_library)), Examples.root_cached).
Proof.
  apply (proj1 (getFolderId_exact_match Examples.affinity Examples.tree_drive
                  "Calibre" "/" "/" Examples.root_cached
                  (mkGdriveId 1 (Some (PyStr Examples.id_library)) "/")
                  eq_refl eq_refl)
               (mkGdriveId 1 (Some (PyStr Examples.id_library)) "/")).
  reflexivity.
Defined.

(** The cache holds the row for "Author1/" and no row for "/": the
    resolution of "Author1/" returns the cached id, yet it has issued a
    remote listing. *)
Lemma exact_match_without_root_row_calls_remote :
  slash_terminated "Author1/" = Ok "Author1/" /\
  row_for_path "Author1/" Examples.author_cached
  = Some (mkGdriveId 1 (Some (PyStr Examples.id_author1)) "Author1/") /\
  fst (getFolderId Examples.affinity Examples.tree_drive "Calibre" "Author1/"
                   Examples.author_cached)
  = Ok (Some (PyStr Examples.id_author1)) /\
  remote_calls (snd (getFolderId Examples.affinity Examples.tree_drive "Calibre" "Author1/"
                                 Examples.author_cached))
  = [CallListFile (root_query "Calibre")] /\
  remote_calls (snd (getFolderId Examples.affinity Examples.tree_drive "Calibre" "Author1/"
                                 Examples.author_cached))
  <> remote_calls Examples.author_cached.
Proof.
  repeat split; try (vm_compute; reflexivity).
  vm_compute. discriminate.
Qed.

(** C8 (what the code does at the failing input). On an empty cache and a
    remote whose listing raises, or which has no library folder, root
    discovery inserts and commits the row for "/" with no remote id. *)
Theorem failed_root_discovery_stores_row_without_id :
  gdrive_ids (session (snd (getEbooksFolderId Examples.affinity
                              Examples.unreachable_drive "Calibre" empty_world)))
  = [mkGdriveId 1 None "/"] /\
  gdrive_ids (committed (snd (getEbooksFolderId Examples.affinity
                                Examples.unreachable_drive "Calibre" empty_world)))
  = [mkGdriveId 1 None "/"] /\
  gdrive_ids (committed (snd (getFolderId Examples.affinity Examples.tree_drive
                                          "No such folder" "Books" empty_world)))
  = [mkGdriveId 1 None "/"] /\
  getEbooksFolderId Examples.affinity Examples.tree_drive "Calibre"
    (snd (getEbooksFolderId Examples.affinity Examples.unreachable_drive "Calibre"
                            empty_world))
  = (Ok None,
     snd (getEbooksFolderId Examples.affinity Examples.unreachable_drive "Calibre"
                            empty_world)).
Proof.
  repeat split; vm_compute; reflexivity.
Qed.

(** ** Strings of path components *)




Lemma string_length_app (a b : string) :
  String.length (a ++ b)%string = (String.length a + String.length b)%nat.
Proof. induction a as [|c a IH]; simpl; [reflexivity | now rewrite IH]. Qed.

Lemma string_app_assoc (a b c : string) :
  ((a ++ b) ++ c = a ++ b ++ c)%string.
Proof. induction a as [|x a IH]; simpl; [reflexivity | now rewrite IH]. Qed.




(** ** The walk over the path components *)

Lemma extends_refl (w : World) : extends w w.
Proof. intros p r H. exact H. Qed.

Lemma extends_trans (w1 w2 w3 : World) : extends w1 w2 -> extends w2 w3 -> extends w1 w3.
Proof. intros H12 H23 p r H. apply H23, H12, H. Qed.

Lemma extends_insert_row (affinity : string -> option Number) (g : option PyValue)
      (q : string) (w : World) :
  extends w (insert_row affinity g q w).
Proof.
  intros p r H. unfold row_for_path, insert_row in *. simpl. now apply find_app_found.
Qed.

Lemma extends_record_call (c : RemoteCall) (w : World) : extends w (record_call c w).
Proof. intros p r H. exact H. Qed.


Lemma row_for_path_insert_same (affinity : string -> option Number)
      (g : option PyValue) (q : string) (w : World) :
  row_for_path q w = None ->
  exists r, row_for_path q (insert_row affinity g q w) = Some r /\
            gdrive_id r = stored affinity g.
Proof.
  unfold row_for_path, insert_row. simpl. intros Hnone.
  rewrite find_app_missing by exact Hnone. simpl. rewrite String.eqb_refl. eauto.
Qed.

Section WalkFacts.

Variable affinity : string -> option Number.
Variable drive : Drive.

Lemma getFolderId_loop_cons (before : list string) (x : string) (rest : list string)
      (cur : option PyValue) (dbc : bool) (w : World) :
  getFolderId_loop affinity drive before (x :: rest) cur dbc w =
  if 0 <? Z.of_nat (String.length x) then
    match slash_terminated (join "/" (before ++ [x])) with
    | Raise e => (Raise e, w)
    | Ok cp =>
        match row_for_path cp w with
        | Some r => getFolderId_loop affinity drive (before ++ [x]) rest (gdrive_id r) dbc w
        | None =>
            let w1 := record_call (CallListFile (folder_query cur x)) w in
            match ListFile_GetList drive (folder_query cur x) with
            | Raise e => (Raise e, w1)
            | Ok [] => (Ok (None, dbc), w1)
            | Ok (f :: _) =>
                getFolderId_loop affinity drive (before ++ [x]) rest
                                 (Some (PyStr (file_id f))) true
                                 (insert_row affinity (Some (PyStr (file_id f))) cp w1)
            end
        end
    end
  else getFolderId_loop affinity drive (before ++ [x]) rest cur dbc w.
Proof.
  simpl. destruct (0 <? Z.of_nat (String.length x)); [|reflexivity].
  unfold bind at 1. unfold lift.
  destruct (slash_terminated (join "/" (before ++ [x]))) as [cp|e]; [|reflexivity].
  unfold bind at 1. unfold query_path, row_for_path.
  destruct (find (fun r => String.eqb (path r) cp) (gdrive_ids (session w)));
    [reflexivity|].
  unfold bind at 1. unfold getFolderInFolder, bind at 1. unfold ListFile, ret.
  destruct (ListFile_GetList drive (folder_query cur x)) as [[|f l]|e]; reflexivity.
Qed.


Lemma getFolderId_loop_extends (s : list string) :
  forall before cur dbc w,
    extends w (snd (getFolderId_loop affinity drive before s cur dbc w)).
Proof.
  induction s as [|x s IH]; intros before cur dbc w; [apply extends_refl|].
  rewrite getFolderId_loop_cons.
  destruct (0 <? Z.of_nat (String.length x)); [|apply IH].
  destruct (slash_terminated (join "/" (before ++ [x]))) as [cp|e]; [|apply extends_refl].
  destruct (row_for_path cp w); [apply IH|].
  cbv zeta.
  destruct (ListFile_GetList drive (folder_query cur x)) as [[|f l]|e];
    try apply extends_record_call.
  eapply extends_trans; [|apply IH].
  eapply extends_trans; [apply extends_record_call | apply extends_insert_row].
Qed.



End WalkFacts.

(** ** Resolving a path twice *)

Section ResolveFacts.

Variable affinity : string -> option Number.
Variable drive : Drive.
Variable folder : string.



End ResolveFacts.

(** *** A failed root discovery *)

Lemma split_of_free (c : ascii) (s : string) : free_of c s = true -> split c s = [s].
Proof.
  induction s as [|a s IH]; simpl; [reflexivity|].
  destruct (Ascii.eqb a c); simpl; [discriminate|].
  intros H. now rewrite (IH H).
Qed.

Lemma last_char_of_free (c : ascii) (s : string) :
  free_of c s = true -> forall d, last_char s = Some d -> Ascii.eqb d c = false.
Proof.
  induction s as [|a s IH]; simpl; [discriminate|].
  intros H d Hd. apply andb_prop in H as [Ha Hs].
  destruct s as [|b s].
  - injection Hd as <-. now apply negb_true_iff in Ha.
  - now apply IH.
Qed.

Lemma slash_terminated_component (x : string) :
  x <> EmptyString -> free_of "/"%char x = true ->
  slash_terminated x = Ok (x ++ "/")%string.
Proof.
  intros Hx Hfree. unfold slash_terminated.
  destruct (last_char x) as [d|] eqn:Hd.
  - now rewrite (last_char_of_free _ _ Hfree d Hd).
  - exfalso. destruct (slash_terminated_ok x Hx) as (q & Hq & _).
    unfold slash_terminated in Hq. rewrite Hd in Hq. discriminate.
Qed.








(** ** What leaves the recorded grants alone *)

Section FrameFacts.

Variable R : World -> World -> Prop.
Hypothesis R_refl : forall w, R w w.
Hypothesis R_trans : forall w1 w2 w3, R w1 w2 -> R w2 w3 -> R w1 w3.

Lemma frame_ret {A : Type} (a : A) : frame R (ret a).
Proof. intros w. apply R_refl. Qed.

Lemma frame_raise {A : Type} (e : Exn) : frame R (@raise A e).
Proof. intros w. apply R_refl. Qed.

Lemma frame_lift {A : Type} (r : Result A) : frame R (lift r).
Proof. intros w. apply R_refl. Qed.

Lemma frame_bind {A B : Type} (m : M A) (k : A -> M B) :
  frame R m -> (forall a, frame R (k a)) -> frame R (bind m k).
Proof.
  intros Hm Hk w. unfold bind. specialize (Hm w).
  destruct (m w) as [[a|e] w1]; simpl in *; [|exact Hm].
  eapply R_trans; [exact Hm | apply Hk].
Qed.

Lemma frame_try_except {A : Type} (m : M A) (h : Exn -> M A) :
  frame R m -> (forall e, frame R (h e)) -> frame R (try_except m h).
Proof.
  intros Hm Hh w. unfold try_except. specialize (Hm w).
  destruct (m w) as [[a|e] w1]; simpl in *; [exact Hm|].
  eapply R_trans; [exact Hm | apply Hh].
Qed.

End FrameFacts.

Lemma keeps_grants_refl (w : World) : keeps_grants w w.
Proof. split; [reflexivity | intros fid; reflexivity]. Qed.

Lemma keeps_grants_trans (w1 w2 w3 : World) :
  keeps_grants w1 w2 -> keeps_grants w2 w3 -> keeps_grants w1 w3.
Proof.
  intros [H1 G1] [H2 G2]. split; [congruence|].
  intros fid. rewrite G2. apply G1.
Qed.

Lemma grants_of_record_call (fid : string) (c : RemoteCall) (w : World) :
  grants_of fid (record_call c w)
  = (grants_of fid w + if is_grant_of fid c then 1 else 0)%nat.
Proof.
  unfold grants_of, record_call. simpl. rewrite filter_app, length_app. simpl.
  destruct (is_grant_of fid c); reflexivity.
Qed.

Lemma keeps_grants_same_tables (w w' : World) :
  permissions_added (session w') = permissions_added (session w) ->
  remote_calls w' = remote_calls w ->
  keeps_grants w w'.
Proof.
  intros Hp Hc. split; [exact Hp|]. intros fid. unfold grants_of. now rewrite Hc.
Qed.

Lemma keeps_grants_permission_for (affinity : string -> option Number)
      (w w' : World) (fid : string) :
  keeps_grants w w' -> permission_for affinity fid w' = permission_for affinity fid w.
Proof. intros [Hp _]. unfold permission_for. now rewrite Hp. Qed.


Section GrantFrame.

Variable affinity : string -> option Number.
Variable drive : Drive.
Variable folder : string.

Local Ltac frame_leaf :=
  first [ apply frame_ret; exact keeps_grants_refl
        | apply frame_raise; exact keeps_grants_refl
        | apply frame_lift; exact keeps_grants_refl ].

Local Ltac frame_seq := apply frame_bind; [exact keeps_grants_trans | | ].

Lemma frame_session_same {A : Type} (m : M A) :
  (forall w, permissions_added (session (snd (m w))) = permissions_added (session w) /\
             remote_calls (snd (m w)) = remote_calls w) ->
  frame keeps_grants m.
Proof. intros H w. destruct (H w). now apply keeps_grants_same_tables. Qed.

Lemma frame_query_path (p : string) : frame keeps_grants (query_path p).
Proof. apply frame_session_same. intros w. split; reflexivity. Qed.


Lemma frame_session_merge (g : option PyValue) (p : string) :
  frame keeps_grants (session_merge affinity g p).
Proof. apply frame_session_same. intros w. split; reflexivity. Qed.

Lemma frame_session_commit : frame keeps_grants session_commit.
Proof. apply frame_session_same. intros w. split; reflexivity. Qed.

Lemma frame_logger_error (msg : string) : frame keeps_grants (logger_error msg).
Proof. apply frame_session_same. intros w. split; reflexivity. Qed.

Lemma frame_ListFile (q : string) : frame keeps_grants (ListFile drive q).
Proof.
  intros w. split; [reflexivity|]. intros fid. simpl.
  rewrite grants_of_record_call. simpl. lia.
Qed.

Lemma frame_getFolderInFolder (parentId : option PyValue) (folderName : string) :
  frame keeps_grants (getFolderInFolder drive parentId folderName).
Proof.
  unfold getFolderInFolder. frame_seq; [apply frame_ListFile | intros l; frame_leaf].
Qed.

Lemma frame_getEbooksFolderId : frame keeps_grants (getEbooksFolderId affinity drive folder).
Proof.
  unfold getEbooksFolderId. frame_seq; [apply frame_query_path|].
  intros [r|]; [frame_leaf|].
  frame_seq.
  - apply frame_try_except; [exact keeps_grants_trans | |].
    + frame_seq; [apply frame_getFolderInFolder|].
      intros [f|]; frame_leaf.
    + intros e. frame_seq; [apply frame_logger_error | intros _; frame_leaf].
  - intros g. frame_seq; [apply frame_session_merge|]. intros _.
    frame_seq; [apply frame_session_commit | intros _; frame_leaf].
Qed.

Lemma frame_getFile (pathId : option PyValue) (fileName : string) :
  frame keeps_grants (getFile drive pathId fileName).
Proof.
  unfold getFile. frame_seq; [apply frame_ListFile | intros l; frame_leaf].
Qed.

Lemma frame_getFolderId_loop (s : list string) :
  forall before cur dbc, frame keeps_grants (getFolderId_loop affinity drive before s cur dbc).
Proof.
  induction s as [|x s IH]; intros before cur dbc; simpl; [frame_leaf|].
  destruct (0 <? Z.of_nat (String.length x)); [|apply IH].
  frame_seq; [frame_leaf|]. intros cp.
  frame_seq; [apply frame_query_path|].
  intros [r|]; [apply IH|].
  frame_seq; [apply frame_getFolderInFolder|].
  intros [f|]; [|frame_leaf].
  frame_seq; [apply frame_session_merge | intros _; apply IH].
Qed.

Lemma frame_getFolderId (p : string) : frame keeps_grants (getFolderId affinity drive folder p).
Proof.
  unfold getFolderId. frame_seq; [apply frame_getEbooksFolderId|]. intros cur.
  unfold getFolderId_body. frame_seq; [frame_leaf|]. intros sq.
  frame_seq; [apply frame_query_path|].
  intros [row|]; [frame_leaf|].
  frame_seq; [apply frame_getFolderId_loop|]. intros r.
  frame_seq; [|intros _; frame_leaf].
  destruct (snd r); [apply frame_session_commit | frame_leaf].
Qed.

Lemma frame_getFileFromEbooksFolder (p : option string) (fileName : string) :
  frame keeps_grants (getFileFromEbooksFolder affinity drive folder p fileName).
Proof.
  unfold getFileFromEbooksFolder. frame_seq.
  - destruct (truthy p); [apply frame_getFolderId | apply frame_getEbooksFolderId].
  - intros folderId. destruct (truthy_value folderId); [apply frame_getFile | frame_leaf].
Qed.




End GrantFrame.

(** ** The public-link permission *)

Section CoverFacts.

Variable affinity : string -> option Number.
Variable drive : Drive.
Variable folder : string.

Lemma get_cover_via_gdrive_unfold (cover_path : option string) (w : World) :
  get_cover_via_gdrive affinity drive folder cover_path w =
  match getFileFromEbooksFolder affinity drive folder cover_path "cover.jpg" w with
  | (Raise e, w1) => (Raise e, w1)
  | (Ok None, w1) => (Ok None, w1)
  | (Ok (Some f), w1) =>
      match permission_for affinity (file_id f) w1 with
      | Some _ => (Ok (webContentLink f), w1)
      | None =>
          match GetPermissions drive f with
          | Raise e => (Raise e, record_call (CallGetPermissions (file_id f)) w1)
          | Ok _ =>
              match InsertPermission drive f with
              | Raise e =>
                  (Raise e, record_call (CallInsertPermission (file_id f))
                                        (record_call (CallGetPermissions (file_id f)) w1))
              | Ok _ => (Ok (webContentLink f), granted affinity f w1)
              end
          end
      end
  end.
Proof.
  unfold get_cover_via_gdrive. unfold bind at 1.
  destruct (getFileFromEbooksFolder affinity drive folder cover_path "cover.jpg" w)
    as [[[f|]|e] w1]; try reflexivity.
  unfold bind at 1. unfold bind at 1. unfold query_permission, permission_for.
  destruct (find (fun r => same_id affinity (pa_gdrive_id r) (Some (PyStr (file_id f))))
                 (permissions_added (session w1))); [reflexivity|].
  unfold bind, call_GetPermissions, call_InsertPermission.
  destruct (GetPermissions drive f); [|reflexivity].
  destruct (InsertPermission drive f); reflexivity.
Qed.






(** A grant call that raises: the call is recorded and no row is stored. *)
Lemma get_cover_via_gdrive_grant_raises
      (cover_path : option string) (w w1 : World) (f : DriveFile) (e : Exn) :
  getFileFromEbooksFolder affinity drive folder cover_path "cover.jpg" w
  = (Ok (Some f), w1) ->
  permission_for affinity (file_id f) w = None ->
  GetPermissions drive f = Ok tt ->
  InsertPermission drive f = Raise e ->
  fst (get_cover_via_gdrive affinity drive folder cover_path w) = Raise e /\
  grants_of (file_id f) (snd (get_cover_via_gdrive affinity drive folder cover_path w))
  = S (grants_of (file_id f) w) /\
  permission_for affinity (file_id f)
                 (snd (get_cover_via_gdrive affinity drive folder cover_path w)) = None /\
  permissions_added (session (snd (get_cover_via_gdrive affinity drive folder
                                                         cover_path w)))
  = permissions_added (session w).
Proof.
  intros Hfile Hnone Hget Hins.
  pose proof (frame_getFileFromEbooksFolder affinity drive folder cover_path
                                            "cover.jpg" w) as Hk.
  rewrite Hfile in Hk. simpl in Hk.
  pose proof (keeps_grants_permission_for affinity w w1 (file_id f) Hk) as Hperm.
  destruct Hk as [Hrows Hgrants].
  rewrite get_cover_via_gdrive_unfold, Hfile, Hperm, Hnone, Hget, Hins. simpl.
  split; [reflexivity|]. split; [|split].
  - rewrite !grants_of_record_call, Hgrants. simpl. rewrite String.eqb_refl. lia.
  - unfold permission_for in *. simpl. now rewrite Hrows.
  - exact Hrows.
Qed.

Hypothesis grant_returns : forall f, InsertPermission drive f = Ok tt.




End CoverFacts.





(** * Further properties of the module *)

(** ** Number and size of the chunks *)

Section SplitterCount.

Variables total chunk : Z.
Hypothesis chunk_pos : 0 < chunk.

Lemma range_up_sizes (fuel : nat) :
  forall p, 0 <= p < total -> total - p <= Z.of_nat fuel ->
    Z.of_nat (List.length (map (pair_at total chunk) (range_up fuel p total chunk)))
    = (total - p + chunk - 1) / chunk /\
    bytes_spanned (map (pair_at total chunk) (range_up fuel p total chunk)) = total - p /\
    (forall i r,
        nth_error (map (pair_at total chunk) (range_up fuel p total chunk)) i = Some r ->
        (S i < List.length (map (pair_at total chunk) (range_up fuel p total chunk)))%nat ->
        pair_size r = chunk).
Proof.
  induction fuel as [|fuel IH]; intros p Hp Hfuel; [simpl in Hfuel; lia|].
  cbn [range_up]. destruct (Z.ltb_spec p total) as [_|Hge]; [|lia].
  cbn [map List.length bytes_spanned fold_right].
  destruct (Z_lt_le_dec (p + chunk) total) as [Hin|Hout].
  - destruct (IH (p + chunk)) as (Hlen & Hsum & Hfull); [lia | lia |].
    split; [|split].
    + rewrite Nat2Z.inj_succ, Hlen.
      replace (total - p + chunk - 1) with ((total - (p + chunk) + chunk - 1) + 1 * chunk)
        by lia.
      rewrite Z.div_add by lia. lia.
    + fold (bytes_spanned (map (pair_at total chunk)
                               (range_up fuel (p + chunk) total chunk))).
      rewrite Hsum. unfold pair_size, pair_at. simpl. lia.
    + intros [|i] r Hr Hi; simpl in Hr.
      * injection Hr as <-. unfold pair_size, pair_at. simpl. lia.
      * apply (Hfull i r Hr). lia.
  - rewrite range_up_past_stop by lia. simpl.
    split; [|split].
    + apply (Z.div_unique _ _ 1 (total - p - 1)); lia.
    + unfold pair_size, pair_at. simpl. lia.
    + intros i r _ Hi. lia.
Qed.

End SplitterCount.

(** X1. For a positive chunk size and a non-negative total, [partial]
    returns ceil(total/chunk) pairs, every pair but the last spans exactly
    [chunk] bytes, and the sizes of all pairs add up to [total]. *)
Theorem partial_count_and_sizes (total chunk : Z) :
  0 <= total -> 0 < chunk ->
  exists l,
    partial total chunk = Ok l /\
    Z.of_nat (List.length l) = (total + chunk - 1) / chunk /\
    bytes_spanned l = total /\
    (forall i r, nth_error l i = Some r -> (S i < List.length l)%nat ->
                 pair_size r = chunk).
Proof.
  intros Ht Hc. unfold partial, range.
  destruct (Z.eqb_spec chunk 0) as [|_]; [lia|].
  destruct (Z.ltb_spec 0 chunk) as [_|]; [|lia].
  eexists. split; [reflexivity|].
  destruct (Z.eq_dec total 0) as [->|Hnz].
  - simpl. split; [|split].
    + symmetry. apply Z.div_small. lia.
    + reflexivity.
    + intros i r Hr. destruct i; discriminate.
  - destruct (range_up_sizes total chunk Hc (Z.to_nat (total - 0)) 0) as (H1 & H2 & H3);
      [lia | lia |].
    replace (total + chunk - 1) with (total - 0 + chunk - 1) by lia.
    split; [exact H1|]. split; [lia | exact H3].
Qed.

Lemma partial_count_and_sizes_witness :
  exists l, partial 3000000 1048576 = Ok l /\ Z.of_nat (List.length l) = 3 /\
            bytes_spanned l = 3000000.
Proof.
  destruct (partial_count_and_sizes 3000000 1048576) as (l & H1 & H2 & H3 & _);
    [lia | lia |].
  exists l. split; [exact H1|]. split; [|exact H3].
  rewrite H2. reflexivity.
Defined.

Lemma range_down_empty (fuel : nat) (p stop step : Z) :
  p <= stop -> range_down fuel p stop step = [].
Proof.
  intros H. destruct fuel; simpl; [reflexivity|].
  destruct (Z.ltb_spec stop p); [lia | reflexivity].
Qed.

(** X2. [partial] raises exactly when the chunk size is 0 (ValueError from
    [range]); with a positive chunk size it returns the empty list exactly
    when the total is not positive; with a negative chunk size and a
    non-negative total it returns the empty list as well.  The downloader,
    whose chunk size is fixed, therefore never raises while splitting. *)
Theorem partial_edge_cases (total chunk : Z) :
  (partial total chunk = Raise ValueError <-> chunk = 0) /\
  (chunk <> 0 -> exists l, partial total chunk = Ok l) /\
  (0 < chunk -> (partial total chunk = Ok [] <-> total <= 0)) /\
  (chunk < 0 -> 0 <= total -> partial total chunk = Ok []) /\
  (exists l, do_gdrive_download total = Ok l /\ (l = [] <-> total <= 0)).
Proof.
  assert (Hpos : forall c, 0 < c -> (partial total c = Ok [] <-> total <= 0)).
  { intros c Hc. unfold partial, range.
    destruct (Z.eqb_spec c 0) as [|_]; [lia|].
    destruct (Z.ltb_spec 0 c) as [_|]; [|lia]. split.
    - intros H. destruct (Z_le_gt_dec total 0) as [|Hgt]; [assumption|].
      destruct (Z.to_nat (total - 0)) as [|n] eqn:Hn; [lia|].
      simpl in H. destruct (Z.ltb_spec 0 total); [discriminate | lia].
    - intros H. rewrite range_up_past_stop by lia. reflexivity. }
  split; [|split; [|split; [|split]]].
  - unfold partial, range. split.
    + destruct (Z.eqb_spec chunk 0) as [|Hne]; [trivial|].
      destruct (0 <? chunk); discriminate.
    + intros ->. reflexivity.
  - intros Hne. unfold partial, range.
    destruct (Z.eqb_spec chunk 0) as [|_]; [contradiction|].
    destruct (0 <? chunk); eexists; reflexivity.
  - apply Hpos.
  - intros Hneg Ht. unfold partial, range.
    destruct (Z.eqb_spec chunk 0) as [|_]; [lia|].
    destruct (Z.ltb_spec 0 chunk) as [|_]; [lia|].
    rewrite range_down_empty by lia. reflexivity.
  - unfold do_gdrive_download.
    destruct (partial total (1024 * 1024)) as [l|e] eqn:Hp.
    + exists l. split; [reflexivity|]. rewrite <- (Hpos (1024 * 1024)) by lia.
      rewrite Hp. split; [intros -> | intros H; injection H]; auto.
    + exfalso. unfold partial, range in Hp. simpl in Hp. discriminate.
Qed.

Lemma partial_edge_cases_witness :
  partial 10 0 = Raise ValueError /\ partial 0 4 = Ok [] /\ partial 10 (-4) = Ok [].
Proof.
  destruct (partial_edge_cases 10 0) as (H1 & _).
  destruct (partial_edge_cases 0 4) as (_ & _ & H3 & _).
  destruct (partial_edge_cases 10 (-4)) as (_ & _ & _ & H4 & _).
  split; [apply H1; reflexivity|]. split; [apply H3; lia | apply H4; lia].
Defined.

(** ** Failures and order of the range requests *)

Section DownloadFailure.

Variable request : string -> string -> HttpResult.
Variable url : string.

Lemma drain_stops_at_failure (before : list (Z * Z)) :
  forall byte after e,
    (forall b, In b before -> answers_206 request url b) ->
    request url (range_header byte) = HttpFailure e ->
    map fst (chunks (drain request url (before ++ byte :: after))) = before /\
    requested (drain request url (before ++ byte :: after)) = before ++ [byte] /\
    warnings (drain request url (before ++ byte :: after)) = [] /\
    raised (drain request url (before ++ byte :: after)) = Some e.
Proof.
  induction before as [|b before IH]; intros byte after e Hall Hreq; simpl.
  - rewrite Hreq. simpl. auto.
  - destruct (Hall b (or_introl eq_refl)) as (c & Hc). rewrite Hc. simpl.
    destruct (IH byte after e) as (H1 & H2 & H3 & H4); auto.
    { intros b' Hb'. apply Hall. now right. }
    rewrite H1, H2, H3, H4. auto.
Qed.

End DownloadFailure.

(** X3. When the transport raises on the request for a range, after the
    ranges before it were answered with 206, the generator raises that
    exception at that pull: the chunks before it have been yielded, nothing
    is logged, and no later range is requested. *)
Theorem stream_propagates_transport_failure
  (request : string -> string -> HttpResult) (url : string)
  (before : list (Z * Z)) (byte : Z * Z) (after : list (Z * Z)) (e : Exn) :
  (forall b, In b before -> answers_206 request url b) ->
  request url (range_header byte) = HttpFailure e ->
  stream_next request url (byte :: after) = GenRaise e /\
  map fst (chunks (drain request url (before ++ byte :: after))) = before /\
  requested (drain request url (before ++ byte :: after)) = before ++ [byte] /\
  warnings (drain request url (before ++ byte :: after)) = [] /\
  raised (drain request url (before ++ byte :: after)) = Some e.
Proof.
  intros Hall Hreq. split.
  - simpl. now rewrite Hreq.
  - now apply drain_stops_at_failure.
Qed.

Lemma stream_propagates_transport_failure_witness :
  raised (drain (fun _ header =>
                   if String.eqb header "bytes=4-7"
                   then HttpFailure (RemoteError "timeout")
                   else HttpResponse 206 header)
                "u" ([(0, 3)] ++ (4, 7) :: [(8, 9)]))
  = Some (RemoteError "timeout").
Proof.
  apply (stream_propagates_transport_failure _ "u" [(0, 3)] (4, 7) [(8, 9)]
           (RemoteError "timeout")).
  - intros b [<-|[]]. eexists. vm_compute. reflexivity.
  - vm_compute. reflexivity.
Defined.

(** X4. Whatever the server answers, the ranges requested are an initial
    segment of the ranges given, in their order.  Either all of them were
    requested and each one yielded its chunk, or exactly one range more was
    requested than chunks were yielded: the first range not answered with
    206, where the stream ended with one warning (another status) or with
    the exception of the transport. *)
Theorem stream_requests_in_order_until_stop
  (request : string -> string -> HttpResult) (url : string) (s : list (Z * Z)) :
  exists rest,
    s = requested (drain request url s) ++ rest /\
    ((map fst (chunks (drain request url s)) = requested (drain request url s) /\
      rest = [] /\
      warnings (drain request url s) = [] /\
      raised (drain request url s) = None) \/
     (exists byte,
         requested (drain request url s)
         = map fst (chunks (drain request url s)) ++ [byte] /\
         ~ answers_206 request url byte /\
         ((exists status content,
              request url (range_header byte) = HttpResponse status content /\
              warnings (drain request url s)
              = [LogWarning "An error occurred: %s" status] /\
              raised (drain request url s) = None) \/
          (exists e,
              request url (range_header byte) = HttpFailure e /\
              warnings (drain request url s) = [] /\
              raised (drain request url s) = Some e)))).
Proof.
  induction s as [|b s IH]; simpl.
  - exists []. split; [reflexivity|]. left. auto.
  - destruct (request url (range_header b)) as [status content|e] eqn:Hreq.
    + destruct (Z.eqb_spec status 206) as [->|Hne]; simpl.
      * destruct IH as (rest & Hs & Hcases). exists rest.
        split; [now rewrite <- Hs|].
        destruct Hcases as [(H1 & H2 & H3 & H4)|(byte & H1 & H2 & H3)].
        -- left. rewrite H1. auto.
        -- right. exists byte. rewrite H1. auto.
      * exists s. split; [reflexivity|]. right. exists b.
        split; [reflexivity|]. split.
        -- intros (c & Hc). rewrite Hreq in Hc. injection Hc as Hs _. contradiction.
        -- left. exists status, content. auto.
    + simpl. exists s. split; [reflexivity|]. right. exists b.
      split; [reflexivity|]. split.
      * intros (c & Hc). rewrite Hreq in Hc. discriminate.
      * right. exists e. auto.
Qed.


(** ** How the operations rewrite the path cache *)

Lemma slash_terminated_ends (p q : string) :
  slash_terminated p = Ok q -> last_char q = Some "/"%char.
Proof.
  intros H. destruct (string_dec p EmptyString) as [->|Hne]; [discriminate|].
  destruct (slash_terminated_ok p Hne) as (q' & Hq' & Hlast & _).
  rewrite H in Hq'. injection Hq' as ->. exact Hlast.
Qed.

Lemma NoDup_map_filter {A B : Type} (f : A -> B) (keep : A -> bool) (l : list A) :
  NoDup (map f l) -> NoDup (map f (filter keep l)).
Proof.
  induction l as [|x l IH]; simpl; intros H; [constructor|].
  inversion H as [|y ys Hnotin Hl]; subst.
  destruct (keep x); [|now apply IH].
  simpl. constructor; [|now apply IH].
  intros Hin. apply Hnotin. apply in_map_iff in Hin as (a & Ha & Hfa).
  apply in_map_iff. exists a. split; [exact Ha|]. now apply filter_In in Hfa.
Qed.

Lemma set_path_of_key_In (key : Z) (p : string) (rows : list GdriveId) :
  forall r, In r (set_path_of_key key p rows) -> In r rows \/ path r = p.
Proof.
  induction rows as [|x rows IH]; simpl; intros r Hr; [contradiction|].
  destruct Hr as [<-|Hr].
  - destruct (gd_id x =? key); [now right | left; now left].
  - destruct (IH r Hr); [left; now right | now right].
Qed.

Lemma cache_change_weaken (rows rows' : list GdriveId) :
  cache_change false rows rows' -> forall renames, cache_change renames rows rows'.
Proof.
  induction 1 as [rows|rows g p Hp Hfresh|rows keep|rows ID p Hr Hp|a b c _ IH1 _ IH2];
    intros renames.
  - apply change_none.
  - now apply change_insert.
  - apply change_delete.
  - discriminate.
  - eapply change_trans; [apply IH1 | apply IH2].
Qed.

Lemma cache_change_terminated (renames : bool) (rows rows' : list GdriveId) :
  cache_change renames rows rows' ->
  (forall r, In r rows -> last_char (path r) = Some "/"%char) ->
  forall r, In r rows' -> last_char (path r) = Some "/"%char.
Proof.
  induction 1 as [rows|rows g p Hp Hfresh|rows keep|rows ID p Hr Hp|a b c _ IH1 _ IH2];
    intros Hall r Hin.
  - now apply Hall.
  - apply in_app_or in Hin as [Hin|[<-|[]]]; [now apply Hall | exact Hp].
  - apply filter_In in Hin as [Hin _]. now apply Hall.
  - destruct (set_path_of_key_In ID p rows r Hin) as [Hold| ->];
      [now apply Hall | exact Hp].
  - auto.
Qed.

Lemma cache_change_paths_unique (rows rows' : list GdriveId) :
  cache_change false rows rows' ->
  NoDup (map path rows) -> NoDup (map path rows').
Proof.
  remember false as renames eqn:Hren.
  induction 1 as [rows|rows g p Hp Hfresh|rows keep|rows ID p Hr Hp|a b c _ IH1 _ IH2];
    intros Hnd.
  - exact Hnd.
  - rewrite map_app. apply NoDup_app; [exact Hnd | repeat constructor; intros [] |].
    intros q Hq [Heq|[]]. simpl in Heq. subst q.
    apply in_map_iff in Hq as (r & Hr & Hin).
    pose proof (proj1 (find_none_iff _ _) Hfresh r Hin) as Hne. simpl in Hne.
    rewrite Hr, String.eqb_refl in Hne. discriminate.
  - now apply NoDup_map_filter.
  - congruence.
  - auto.
Qed.

Section CacheChanges.

Variable affinity : string -> option Number.
Variable drive : Drive.
Variable folder : string.

Lemma changes_cache_refl (renames : bool) (w : World) : changes_cache renames w w.
Proof. apply change_none. Qed.

Lemma changes_cache_trans (renames : bool) (w1 w2 w3 : World) :
  changes_cache renames w1 w2 -> changes_cache renames w2 w3 -> changes_cache renames w1 w3.
Proof. apply change_trans. Qed.

Lemma changes_getEbooksFolderId :
  frame (changes_cache false) (getEbooksFolderId affinity drive folder).
Proof.
  intros w. destruct (row_for_path "/" w) as [r|] eqn:Hroot.
  - rewrite (getEbooksFolderId_cached affinity drive folder w r Hroot). apply change_none.
  - rewrite (getEbooksFolderId_discovers affinity drive folder w Hroot).
    unfold changes_cache, after_root_discovery. simpl.
    apply change_insert; [reflexivity | exact Hroot].
Qed.

Lemma changes_getFolderId_loop (s : list string) :
  forall before cur dbc,
    frame (changes_cache false) (getFolderId_loop affinity drive before s cur dbc).
Proof.
  induction s as [|x s IH]; intros before cur dbc w; [apply change_none|].
  rewrite getFolderId_loop_cons.
  destruct (0 <? Z.of_nat (String.length x)); [|apply IH].
  destruct (slash_terminated (join "/" (before ++ [x]))) as [cp|e] eqn:Hcp;
    [|apply change_none].
  destruct (row_for_path cp w) eqn:Hrow; [apply IH|].
  cbv zeta.
  destruct (ListFile_GetList drive (folder_query cur x)) as [[|f l]|e];
    try apply change_none.
  eapply changes_cache_trans; [|apply IH].
  unfold changes_cache, insert_row. simpl.
  apply change_insert; [exact (slash_terminated_ends _ _ Hcp) | exact Hrow].
Qed.

Local Ltac change_leaf :=
  first [ apply frame_ret; exact (changes_cache_refl false)
        | apply frame_raise; exact (changes_cache_refl false)
        | apply frame_lift; exact (changes_cache_refl false)
        | intros ?; apply change_none ].

Local Ltac change_seq := apply frame_bind; [exact (changes_cache_trans false) | | ].

Lemma changes_getFolderId (p : string) :
  frame (changes_cache false) (getFolderId affinity drive folder p).
Proof.
  unfold getFolderId. change_seq; [apply changes_getEbooksFolderId|]. intros cur.
  unfold getFolderId_body. change_seq; [change_leaf|]. intros sq.
  change_seq; [change_leaf|].
  intros [row|]; [change_leaf|].
  change_seq; [apply changes_getFolderId_loop|]. intros r.
  change_seq; [|intros _; change_leaf].
  destruct (snd r); change_leaf.
Qed.

Lemma changes_getFileFromEbooksFolder (p : option string) (fileName : string) :
  frame (changes_cache false) (getFileFromEbooksFolder affinity drive folder p fileName).
Proof.
  unfold getFileFromEbooksFolder. change_seq.
  - destruct (truthy p); [apply changes_getFolderId | apply changes_getEbooksFolderId].
  - intros folderId. destruct (truthy_value folderId); [|change_leaf].
    unfold getFile. change_seq; [change_leaf | intros l; change_leaf].
Qed.

Lemma changes_get_cover_via_gdrive (p : option string) :
  frame (changes_cache false) (get_cover_via_gdrive affinity drive folder p).
Proof.
  intros w. rewrite get_cover_via_gdrive_unfold.
  pose proof (changes_getFileFromEbooksFolder p "cover.jpg" w) as Hk.
  destruct (getFileFromEbooksFolder affinity drive folder p "cover.jpg" w) as [[[f|]|e] w1];
    simpl in Hk; try exact Hk.
  destruct (permission_for affinity (file_id f) w1); [exact Hk|].
  destruct (GetPermissions drive f); [|exact Hk].
  destruct (InsertPermission drive f); exact Hk.
Qed.

Lemma changes_run_op (op : Op) (w : World) :
  changes_cache (is_rename op) w (run_op affinity drive folder op w).
Proof.
  destruct op as [|p|p fileName| |ID newPath|ID|cover_path]; cbn [run_op is_rename].
  - apply changes_getEbooksFolderId.
  - apply changes_getFolderId.
  - apply changes_getFileFromEbooksFolder.
  - unfold changes_cache.
    change (gdrive_ids (session (snd (deleteDatabaseOnChange w)))) with (@nil GdriveId).
    assert (Hnone : filter (fun _ : GdriveId => false) (gdrive_ids (session w)) = []).
    { induction (gdrive_ids (session w)); [reflexivity | assumption]. }
    rewrite <- Hnone. apply change_delete.
  - unfold updateDatabaseOnEdit, bind, lift, query_gdrive_id.
    destruct (slash_terminated newPath) as [sq|e] eqn:Hsq; [|apply change_none].
    destruct (index_first (filter (fun r => same_id affinity (gdrive_id r) ID)
                                  (gdrive_ids (session w)))) as [row|];
      [|apply change_none].
    destruct (breaks_gdrive_path_uc row sq (gdrive_ids (session w))); [apply change_none|].
    apply change_rename; [reflexivity | exact (slash_terminated_ends _ _ Hsq)].
  - apply change_delete.
  - apply changes_get_cover_via_gdrive.
Qed.

End CacheChanges.

(** X5. Every cached path ends with a slash: if that holds of all rows, it
    holds after any sequence of operations of the module. *)
Theorem operations_keep_paths_terminated
  (affinity : string -> option Number) (drive : Drive) (folder : string)
  (ops : list Op) (w : World) :
  paths_terminated w -> paths_terminated (run_ops affinity drive folder ops w).
Proof.
  revert w. induction ops as [|op ops IH]; intros w Hw; [exact Hw|].
  simpl. apply IH. unfold paths_terminated in *.
  exact (cache_change_terminated _ _ _ (changes_run_op affinity drive folder op w) Hw).
Qed.

Lemma operations_keep_paths_terminated_witness :
  paths_terminated (run_ops Examples.affinity Examples.tree_drive "Calibre"
                            [OpGetFolderId "Books/Author1";
                             OpUpdateDatabaseOnEdit (Some (PyStr "id-books")) "Shelf"]
                            Examples.root_cached).
Proof.
  apply operations_keep_paths_terminated.
  intros r [<-|[]]. reflexivity.
Defined.

(** X6. Lookups and deletions never give two rows the same path: if the
    cached paths are pairwise distinct, they stay so along any sequence of
    operations without [updateDatabaseOnEdit].  A rename can break it: it
    overwrites a path without looking for a row that has it already. *)
Theorem lookups_keep_paths_unique
  (affinity : string -> option Number) (drive : Drive) (folder : string) :
  (forall ops w,
      forallb (fun op => negb (is_rename op)) ops = true ->
      paths_unique w -> paths_unique (run_ops affinity drive folder ops w)) /\
  (exists w ID p,
      paths_unique w /\
      ~ paths_unique (run_op affinity drive folder (OpUpdateDatabaseOnEdit ID p) w)).
Proof.
  split.
  - induction ops as [|op ops IH]; intros w Hops Hw; [exact Hw|].
    simpl in Hops. apply andb_prop in Hops as [Hop Hops].
    simpl. apply IH; [exact Hops|]. unfold paths_unique in *.
    pose proof (changes_run_op affinity drive folder op w) as Hch.
    destruct (is_rename op); [discriminate|].
    exact (cache_change_paths_unique _ _ Hch Hw).
  - exists (mkWorld (mkTables [mkGdriveId 1 (Some (PyNum (Whole 1))) "x/";
                               mkGdriveId 2 (Some (PyNum (Whole 2))) "y/"] [])
                    empty_tables [] []),
           (Some (PyNum (Whole 2))), "x".
    split.
    + unfold paths_unique. simpl. repeat constructor; simpl; intuition discriminate.
    + unfold paths_unique. simpl. intros H. inversion H as [|? ? Hnotin _]; subst.
      apply Hnotin. now left.
Qed.

Lemma lookups_keep_paths_unique_witness :
  paths_unique (run_ops Examples.affinity Examples.tree_drive "Calibre"
                        [OpGetFolderId "Books/Author1"; OpGetFolderId "Books//Author1"]
                        Examples.root_cached).
Proof.
  apply (proj1 (lookups_keep_paths_unique Examples.affinity Examples.tree_drive
                                          "Calibre")).
  - reflexivity.
  - unfold paths_unique. simpl. repeat constructor. intros [].
Defined.

(** ** Number of listings of a resolution *)

Lemma lists_at_most_refl (w : World) : lists_at_most 0 w w.
Proof.
  exists []. split; [now rewrite app_nil_r|]. split; [intros c []|]. simpl. lia.
Qed.

Lemma lists_at_most_trans (n m : nat) (w1 w2 w3 : World) :
  lists_at_most n w1 w2 -> lists_at_most m w2 w3 -> lists_at_most (n + m) w1 w3.
Proof.
  intros (c1 & H1 & L1 & N1) (c2 & H2 & L2 & N2). exists (c1 ++ c2).
  split; [rewrite H2, H1; now rewrite app_assoc|]. split.
  - intros c Hc. apply in_app_or in Hc as [Hc|Hc]; auto.
  - rewrite length_app. lia.
Qed.

Lemma lists_at_most_more (n m : nat) (w w' : World) :
  (n <= m)%nat -> lists_at_most n w w' -> lists_at_most m w w'.
Proof. intros Hle (c & H & L & N). exists c. repeat split; auto. lia. Qed.

Lemma lists_at_most_same_calls (w w' : World) :
  remote_calls w' = remote_calls w -> lists_at_most 0 w w'.
Proof.
  intros H. exists []. split; [now rewrite app_nil_r|]. split; [intros c []|]. simpl. lia.
Qed.

Lemma lists_at_most_listing (q : string) (w : World) :
  lists_at_most 1 w (record_call (CallListFile q) w).
Proof.
  exists [CallListFile q]. split; [reflexivity|]. split; [|simpl; lia].
  intros c [<-|[]]. reflexivity.
Qed.

Section ListingBound.

Variable affinity : string -> option Number.
Variable drive : Drive.
Variable folder : string.

Lemma getFolderId_loop_listings (s : list string) :
  forall before cur dbc w,
    lists_at_most (components s) w (snd (getFolderId_loop affinity drive before s cur dbc w)).
Proof.
  induction s as [|x s IH]; intros before cur dbc w; [apply lists_at_most_refl|].
  rewrite getFolderId_loop_cons. unfold components. cbn [filter].
  destruct (0 <? Z.of_nat (String.length x)); [|apply IH].
  cbn [List.length]. fold (components s).
  destruct (slash_terminated (join "/" (before ++ [x]))) as [cp|e];
    [|eapply lists_at_most_more; [|apply lists_at_most_refl]; lia].
  destruct (row_for_path cp w);
    [eapply lists_at_most_more; [|apply IH]; lia|].
  cbv zeta.
  destruct (ListFile_GetList drive (folder_query cur x)) as [[|f l]|e];
    try (eapply lists_at_most_more; [|apply lists_at_most_listing]; lia).
  change (S (components s)) with (1 + components s)%nat.
  eapply lists_at_most_trans; [apply lists_at_most_listing|].
  eapply lists_at_most_trans with (n := O); [|apply IH].
  now apply lists_at_most_same_calls.
Qed.

Lemma getEbooksFolderId_listings (w : World) :
  lists_at_most (match row_for_path "/" w with Some _ => 0 | None => 1 end)
                w (snd (getEbooksFolderId affinity drive folder w)).
Proof.
  destruct (row_for_path "/" w) as [r|] eqn:Hroot.
  - rewrite (getEbooksFolderId_cached affinity drive folder w r Hroot). apply lists_at_most_refl.
  - rewrite (getEbooksFolderId_discovers affinity drive folder w Hroot).
    exists [CallListFile (root_query folder)].
    split; [reflexivity|]. split; [|simpl; lia]. intros c [<-|[]]. reflexivity.
Qed.

Lemma getFolderId_body_listings (cur : option PyValue) (p : string) (w : World) :
  lists_at_most (components (split "/"%char p)) w (snd (getFolderId_body affinity drive cur p w)).
Proof.
  unfold getFolderId_body, bind, lift, query_path.
  destruct (slash_terminated p) as [sq|e];
    [|eapply lists_at_most_more; [|apply lists_at_most_refl]; lia].
  destruct (find (fun r => String.eqb (path r) sq) (gdrive_ids (session w)));
    [eapply lists_at_most_more; [|apply lists_at_most_refl]; lia|].
  pose proof (getFolderId_loop_listings (split "/"%char p) [] cur false w) as Hloop.
  destruct (getFolderId_loop affinity drive [] (split "/"%char p) cur false w) as [[[r dbc]|e] w1];
    simpl in *; [|exact Hloop].
  destruct dbc; simpl; exact Hloop.
Qed.

End ListingBound.

(** X7. A resolution issues only listings, and few of them: at most one per
    non-empty component of the path, and one more for root discovery when
    the cache has no row for "/". *)
Theorem getFolderId_listing_bound
  (affinity : string -> option Number) (drive : Drive) (folder path : string) (w : World) :
  lists_at_most ((match row_for_path "/" w with Some _ => 0 | None => 1 end)
                 + components (split "/"%char path))
                w (snd (getFolderId affinity drive folder path w)).
Proof.
  unfold getFolderId, bind.
  pose proof (getEbooksFolderId_listings affinity drive folder w) as Hroot.
  destruct (getEbooksFolderId affinity drive folder w) as [[cur|e] w1]; simpl in Hroot.
  - eapply lists_at_most_trans; [exact Hroot | apply getFolderId_body_listings].
  - simpl. eapply lists_at_most_more; [|exact Hroot]. lia.
Qed.

Lemma getFolderId_listing_bound_witness :
  lists_at_most 2 Examples.root_cached
                (snd (getFolderId Examples.affinity Examples.tree_drive "Calibre" "Books//Author1/"
                                  Examples.root_cached)).
Proof.
  exact (getFolderId_listing_bound Examples.affinity Examples.tree_drive "Calibre" "Books//Author1/"
                                   Examples.root_cached).
Defined.

(** ** Which calls raise *)

Lemma string_app_empty (a b : string) : (a ++ b)%string = EmptyString -> b = EmptyString.
Proof. destruct a; simpl; [trivial | discriminate]. Qed.

Lemma join_last_nonempty (sep : string) (before : list string) (x : string) :
  x <> EmptyString -> join sep (before ++ [x]) <> EmptyString.
Proof.
  intros Hx. induction before as [|b before IH]; [exact Hx|].
  change ((b :: before) ++ [x]) with (b :: (before ++ [x])).
  destruct (before ++ [x]) as [|y l] eqn:E; [now destruct before|].
  change (join sep (b :: y :: l)) with (b ++ sep ++ join sep (y :: l))%string.
  intros H. apply string_app_empty in H. apply string_app_empty in H. contradiction.
Qed.

Lemma nonempty_length (x : string) :
  (0 <? Z.of_nat (String.length x)) = true -> x <> EmptyString.
Proof. intros H ->. discriminate. Qed.

Section Raising.

Variable affinity : string -> option Number.
Variable drive : Drive.
Variable folder : string.


Hypothesis listings_answer : forall q, exists l, ListFile_GetList drive q = Ok l.



End Raising.



(** ** What is committed when an operation returns *)

Section Commits.

Variable affinity : string -> option Number.
Variable drive : Drive.
Variable folder : string.

Lemma getFolderId_loop_pending (s : list string) :
  forall before cur dbc w r dbc' w',
    getFolderId_loop affinity drive before s cur dbc w = (Ok (r, dbc'), w') ->
    committed w' = committed w /\
    (dbc' = false -> session w' = session w) /\
    (dbc = true -> dbc' = true).
Proof.
  induction s as [|x s IH]; intros before cur dbc w r dbc' w' Hrun.
  - simpl in Hrun. unfold ret in Hrun. injection Hrun as _ <- <-. auto.
  - rewrite getFolderId_loop_cons in Hrun.
    destruct (0 <? Z.of_nat (String.length x)); [|eapply IH; eassumption].
    destruct (slash_terminated (join "/" (before ++ [x]))) as [cp|e]; [|discriminate].
    destruct (row_for_path cp w); [eapply IH; eassumption|].
    cbv zeta in Hrun.
    destruct (ListFile_GetList drive (folder_query cur x)) as [[|f l]|e]; try discriminate.
    + injection Hrun as _ <- <-. auto.
    + destruct (IH _ _ _ _ _ _ _ Hrun) as (Hc & _ & Htrue).
      rewrite (Htrue eq_refl). split; [exact Hc|]. split; [discriminate | trivial].
Qed.

Lemma getEbooksFolderId_settles (w : World) :
  committed w = session w ->
  committed (snd (getEbooksFolderId affinity drive folder w))
  = session (snd (getEbooksFolderId affinity drive folder w)).
Proof.
  intros Hw. destruct (row_for_path "/" w) as [row|] eqn:Hroot.
  - now rewrite (getEbooksFolderId_cached affinity drive folder w row Hroot).
  - now rewrite (getEbooksFolderId_discovers affinity drive folder w Hroot).
Qed.

Lemma getFolderId_settles (p : string) (w : World) (r : option PyValue) (w' : World) :
  committed w = session w ->
  getFolderId affinity drive folder p w = (Ok r, w') ->
  committed w' = session w'.
Proof.
  intros Hw Hrun. unfold getFolderId, bind in Hrun.
  pose proof (getEbooksFolderId_settles w Hw) as Hroot.
  destruct (getEbooksFolderId affinity drive folder w) as [[cur|e] w1]; [|discriminate].
  simpl in Hroot. unfold getFolderId_body, bind, lift, query_path in Hrun.
  destruct (slash_terminated p) as [sq|e]; [|discriminate].
  destruct (find (fun row => String.eqb (path row) sq) (gdrive_ids (session w1))).
  - unfold ret in Hrun. injection Hrun as _ <-. exact Hroot.
  - destruct (getFolderId_loop affinity drive [] (split "/"%char p) cur false w1)
      as [[[r1 dbc]|e] w2] eqn:Hloop; [|discriminate].
    destruct (getFolderId_loop_pending _ _ _ _ _ _ _ _ Hloop) as (Hc & Hs & _).
    destruct dbc; simpl in Hrun; unfold ret in Hrun; injection Hrun as _ <-.
    + reflexivity.
    + rewrite Hc, (Hs eq_refl). exact Hroot.
Qed.

Lemma getFileFromEbooksFolder_settles
      (p : option string) (fileName : string) (w : World) (r : option DriveFile) (w' : World) :
  committed w = session w ->
  getFileFromEbooksFolder affinity drive folder p fileName w = (Ok r, w') ->
  committed w' = session w'.
Proof.
  intros Hw Hrun. unfold getFileFromEbooksFolder, bind in Hrun.
  assert (Hfolder : forall id w1,
             (if truthy p then getFolderId affinity drive folder (str_of_opt p)
              else getEbooksFolderId affinity drive folder) w = (Ok id, w1) ->
             committed w1 = session w1).
  { intros id w1 H. destruct (truthy p).
    - exact (getFolderId_settles _ _ _ _ Hw H).
    - pose proof (getEbooksFolderId_settles w Hw) as Hs. now rewrite H in Hs. }
  destruct ((if truthy p then getFolderId affinity drive folder (str_of_opt p)
             else getEbooksFolderId affinity drive folder) w) as [[id|e] w1]; [|discriminate].
  specialize (Hfolder id w1 eq_refl).
  destruct (truthy_value id).
  - unfold getFile, bind, ListFile in Hrun.
    destruct (ListFile_GetList drive _); [|discriminate].
    unfold ret in Hrun. injection Hrun as _ <-. exact Hfolder.
  - unfold ret in Hrun. injection Hrun as _ <-. exact Hfolder.
Qed.

End Commits.

(** X9. Nothing stays pending after a normal return: from a world whose
    session holds nothing uncommitted, every operation of the module that
    returns without an exception ends in such a world.  In particular a
    walk that found only part of the path commits the rows it has added
    before it returns [None]. *)
Theorem returned_operations_leave_nothing_pending
  (affinity : string -> option Number) (drive : Drive) (folder : string) (op : Op) (w : World) :
  committed w = session w ->
  run_op_exception affinity drive folder op w = None ->
  committed (run_op affinity drive folder op w) = session (run_op affinity drive folder op w).
Proof.
  intros Hw Hret.
  destruct op as [|p|p fileName| |ID newPath|ID|cover_path];
    cbn [run_op run_op_exception] in *.
  - now apply getEbooksFolderId_settles.
  - destruct (getFolderId affinity drive folder p w) as [[r|e] w'] eqn:Hrun; [|discriminate].
    exact (getFolderId_settles affinity drive folder _ _ _ _ Hw Hrun).
  - destruct (getFileFromEbooksFolder affinity drive folder p fileName w) as [[r|e] w'] eqn:Hrun;
      [|discriminate].
    exact (getFileFromEbooksFolder_settles affinity drive folder _ _ _ _ _ Hw Hrun).
  - reflexivity.
  - unfold updateDatabaseOnEdit, bind, lift, query_gdrive_id in *.
    destruct (slash_terminated newPath) as [sq|e]; [|discriminate].
    destruct (index_first (filter (fun r => same_id affinity (gdrive_id r) ID)
                                  (gdrive_ids (session w)))) as [row|];
      [|exact Hw].
    destruct (breaks_gdrive_path_uc row sq (gdrive_ids (session w)));
      [discriminate | reflexivity].
  - reflexivity.
  - rewrite get_cover_via_gdrive_unfold in *.
    destruct (getFileFromEbooksFolder affinity drive folder cover_path "cover.jpg" w)
      as [[[f|]|e] w1] eqn:Hrun; [| |discriminate].
    + pose proof (getFileFromEbooksFolder_settles affinity drive folder _ _ _ _ _ Hw Hrun) as Hw1.
      destruct (permission_for affinity (file_id f) w1); [exact Hw1|].
      destruct (GetPermissions drive f); [|discriminate].
      destruct (InsertPermission drive f); [reflexivity | discriminate].
    + exact (getFileFromEbooksFolder_settles affinity drive folder _ _ _ _ _ Hw Hrun).
Qed.

Lemma returned_operations_leave_nothing_pending_witness :
  committed (run_op Examples.affinity Examples.tree_drive "Calibre"
                    (OpGetFolderId "Books/Nowhere/Deeper") Examples.root_cached)
  = session (run_op Examples.affinity Examples.tree_drive "Calibre"
                    (OpGetFolderId "Books/Nowhere/Deeper") Examples.root_cached).
Proof.
  apply returned_operations_leave_nothing_pending; reflexivity.
Defined.

(** ** Deleting and renaming, then looking up *)

Lemma find_filter_kept {A : Type} (f keep : A -> bool) (l : list A) (a : A) :
  find f l = Some a -> keep a = true -> find f (filter keep l) = Some a.
Proof.
  induction l as [|x l IH]; simpl; [discriminate|].
  destruct (f x) eqn:Hfx.
  - intros H Hkeep. injection H as ->. rewrite Hkeep. simpl. now rewrite Hfx.
  - intros H Hkeep. destruct (keep x); [simpl; rewrite Hfx|]; now apply IH.
Qed.

Lemma filter_twice {A : Type} (keep : A -> bool) (l : list A) :
  filter keep (filter keep l) = filter keep l.
Proof.
  induction l as [|x l IH]; simpl; [reflexivity|].
  destruct (keep x) eqn:Hx; [simpl; rewrite Hx; now f_equal | exact IH].
Qed.

Lemma filter_same_predicate {A : Type} (f g : A -> bool) (l : list A) :
  (forall a, f a = g a) -> filter f l = filter g l.
Proof.
  intros H. induction l as [|x l IH]; simpl; [reflexivity|].
  rewrite H, IH. reflexivity.
Qed.

Lemma same_id_false (affinity : string -> option Number) (held ID : option PyValue) :
  same_id affinity held ID = false <-> held <> stored affinity ID.
Proof.
  unfold same_id. split.
  - intros H E. apply opt_value_eqb_eq in E. congruence.
  - intros H. destruct (opt_value_eqb held (stored affinity ID)) eqn:E; [|reflexivity].
    apply opt_value_eqb_eq in E. contradiction.
Qed.

(** X10. After [deleteDatabaseEntry(ID)] no row holds what the Integer
    column makes of [ID] and the rows that hold something else are all
    kept, so that a path cached under another id is still found with the
    same row; deleting the same id again changes nothing; and two ids that
    the column stores alike, such as a text and the number it reads as,
    delete the same rows. *)
Theorem deleteDatabaseEntry_forgets_only_that_id
  (affinity : string -> option Number) (ID : option PyValue) (w : World) :
  row_for_id affinity ID (snd (deleteDatabaseEntry affinity ID w)) = None /\
  (forall r, In r (gdrive_ids (session (snd (deleteDatabaseEntry affinity ID w)))) <->
             In r (gdrive_ids (session w)) /\ gdrive_id r <> stored affinity ID) /\
  (forall p r, row_for_path p w = Some r ->
               gdrive_id r <> stored affinity ID ->
               row_for_path p (snd (deleteDatabaseEntry affinity ID w)) = Some r) /\
  deleteDatabaseEntry affinity ID (snd (deleteDatabaseEntry affinity ID w))
  = (Ok tt, snd (deleteDatabaseEntry affinity ID w)) /\
  (forall ID', stored affinity ID' = stored affinity ID ->
               deleteDatabaseEntry affinity ID' w = deleteDatabaseEntry affinity ID w).
Proof.
  split; [|split; [|split; [|split]]].
  - apply row_for_id_none. intros r Hr. simpl in Hr.
    apply filter_In in Hr as [_ Hr]. now apply negb_true_iff in Hr.
  - intros r. simpl. rewrite filter_In, negb_true_iff, same_id_false. reflexivity.
  - intros p r Hfind Hkeep. unfold row_for_path in *. simpl.
    apply find_filter_kept; [exact Hfind|].
    apply negb_true_iff. now apply same_id_false.
  - unfold deleteDatabaseEntry, bind, session_commit, set_gdrive_ids. simpl.
    now rewrite filter_twice.
  - intros ID' Hsame. unfold deleteDatabaseEntry, bind, session_commit, set_gdrive_ids.
    simpl.
    rewrite (filter_same_predicate
               (fun r => negb (same_id affinity (gdrive_id r) ID'))
               (fun r => negb (same_id affinity (gdrive_id r) ID))); [reflexivity|].
    intros r. unfold same_id. now rewrite Hsame.
Qed.

Lemma deleteDatabaseEntry_forgets_only_that_id_witness :
  row_for_path "/" (snd (deleteDatabaseEntry Examples.affinity (Some (PyStr "id-books"))
                                             Examples.root_cached))
  = Some (mkGdriveId 1 (Some (PyStr Examples.id_library)) "/").
Proof.
  apply (proj1 (proj2 (proj2 (deleteDatabaseEntry_forgets_only_that_id
                                Examples.affinity (Some (PyStr "id-books"))
                                Examples.root_cached)))).
  - reflexivity.
  - discriminate.
Defined.

Lemma find_path_after_rename (q : string) (before after : list GdriveId) (r : GdriveId) :
  find (fun x => String.eqb (path x) q) (before ++ r :: after) = None ->
  find (fun x => String.eqb (path x) q)
       (before ++ mkGdriveId (gd_id r) (gdrive_id r) q :: after)
  = Some (mkGdriveId (gd_id r) (gdrive_id r) q).
Proof.
  intros Hnone.
  assert (Hbefore : find (fun x => String.eqb (path x) q) before = None).
  { apply find_none_iff. intros x Hx.
    apply (proj1 (find_none_iff _ _) Hnone). apply in_or_app. now left. }
  rewrite find_app_missing by exact Hbefore. simpl. now rewrite String.eqb_refl.
Qed.

Lemma find_other_path_after_rename (p q : string) (before after : list GdriveId)
      (r root : GdriveId) :
  p <> q -> root <> r ->
  find (fun x => String.eqb (path x) p) (before ++ r :: after) = Some root ->
  find (fun x => String.eqb (path x) p)
       (before ++ mkGdriveId (gd_id r) (gdrive_id r) q :: after) = Some root.
Proof.
  intros Hpq Hne Hfind.
  destruct (find (fun x => String.eqb (path x) p) before) as [x|] eqn:Hbefore.
  - rewrite (find_app_found _ _ _ _ Hbefore) in Hfind.
    rewrite (find_app_found _ _ _ _ Hbefore). exact Hfind.
  - rewrite find_app_missing in Hfind by exact Hbefore.
    rewrite find_app_missing by exact Hbefore. simpl in *.
    destruct (String.eqb_spec q p) as [E|_]; [congruence|].
    destruct (String.eqb (path r) p); [|exact Hfind].
    injection Hfind as E. congruence.
Qed.

Lemma NoDup_keys_split (before after : list GdriveId) (r : GdriveId) :
  NoDup (map gd_id (before ++ r :: after)) ->
  forall x, In x (before ++ after) -> gd_id x <> gd_id r.
Proof.
  rewrite map_app. simpl. intros Hnd x Hx E.
  apply NoDup_remove_2 in Hnd. apply Hnd. rewrite <- E, <- map_app.
  now apply in_map.
Qed.

(** X11. After [updateDatabaseOnEdit(ID, newPath)] has renamed the row of a
    cached remote id to a path that no row had, resolving [newPath] returns
    that id as the column holds it, from the cache, with no remote call and
    no change, provided the row for "/" belongs to another remote id.  The
    primary keys of the table are distinct. *)
Theorem rename_then_resolve_is_local
  (affinity : string -> option Number) (drive : Drive) (folder : string)
  (ID : option PyValue) (newPath sq : string) (w : World) (r root : GdriveId) :
  slash_terminated newPath = Ok sq ->
  row_for_id affinity ID w = Some r ->
  row_for_path sq w = None ->
  row_for_path "/" w = Some root ->
  same_id affinity (gdrive_id root) ID = false ->
  NoDup (map gd_id (gdrive_ids (session w))) ->
  fst (updateDatabaseOnEdit affinity ID newPath w) = Ok tt /\
  getFolderId affinity drive folder newPath (snd (updateDatabaseOnEdit affinity ID newPath w))
  = (Ok (stored affinity ID), snd (updateDatabaseOnEdit affinity ID newPath w)).
Proof.
  intros Hsq Hid Hfresh Hroot Hother Hkeys.
  destruct (row_for_id_least affinity ID w r Hid) as (Hin & Hheld & _).
  destruct (in_split _ _ Hin) as (before & after & Hrows).
  assert (Hfree : breaks_gdrive_path_uc r sq (gdrive_ids (session w)) = false).
  { destruct (breaks_gdrive_path_uc r sq (gdrive_ids (session w))) eqn:Hb; [|reflexivity].
    apply breaks_gdrive_path_uc_iff in Hb. destruct Hb as (x & Hx & _ & _ & _ & Hp).
    pose proof (proj1 (find_none_iff _ _) Hfresh x Hx) as Hne. simpl in Hne.
    rewrite Hp, String.eqb_refl in Hne. discriminate. }
  assert (Hrun : updateDatabaseOnEdit affinity ID newPath w
                 = session_commit
                     (set_gdrive_ids
                        (before ++ mkGdriveId (gd_id r) (gdrive_id r) sq :: after) w)).
  { unfold updateDatabaseOnEdit, bind, lift, query_gdrive_id. rewrite Hsq.
    unfold row_for_id in Hid. rewrite Hid, Hfree, Hrows.
    rewrite set_path_of_key_at; [reflexivity|].
    apply NoDup_keys_split. now rewrite <- Hrows. }
  rewrite Hrun. split; [reflexivity|]. cbn [snd session_commit].
  set (w' := mkWorld _ _ _ _).
  assert (Hne : root <> r).
  { intros ->. rewrite Hheld in Hother. discriminate. }
  assert (Hsq_root : "/" <> sq).
  { intros <-. congruence. }
  assert (Hroot_w' : row_for_path "/" w' = Some root).
  { unfold row_for_path, w'. simpl. unfold row_for_path in Hroot. rewrite Hrows in Hroot.
    now apply find_other_path_after_rename. }
  assert (Hnew_w' : row_for_path sq w' = Some (mkGdriveId (gd_id r) (gdrive_id r) sq)).
  { unfold row_for_path, w'. simpl. unfold row_for_path in Hfresh. rewrite Hrows in Hfresh.
    now apply find_path_after_rename. }
  rewrite (getFolderId_cached affinity drive folder w' newPath sq root _ Hsq Hroot_w' Hnew_w').
  cbn [gdrive_id]. f_equal. f_equal. now apply opt_value_eqb_eq.
Qed.

Lemma rename_then_resolve_is_local_witness :
  getFolderId Examples.affinity Examples.tree_drive "Calibre" "Shelf"
              (snd (updateDatabaseOnEdit Examples.affinity (Some (PyStr "id-books")) "Shelf"
                      (snd (getFolderId Examples.affinity Examples.tree_drive "Calibre"
                                        "Books" Examples.root_cached))))
  = (Ok (Some (PyStr "id-books")),
     snd (updateDatabaseOnEdit Examples.affinity (Some (PyStr "id-books")) "Shelf"
            (snd (getFolderId Examples.affinity Examples.tree_drive "Calibre" "Books"
                              Examples.root_cached)))).
Proof.
  apply (rename_then_resolve_is_local Examples.affinity Examples.tree_drive "Calibre"
           (Some (PyStr "id-books")) "Shelf" "Shelf/" _
           (mkGdriveId 2 (Some (PyStr "id-books")) "Books/")
           (mkGdriveId 1 (Some (PyStr Examples.id_library)) "/")); try reflexivity.
  simpl. repeat constructor; simpl; intuition discriminate.
Defined.

(** ** The first resolution on an empty cache *)

Lemma split_free (c : ascii) (s : string) :
  forall x, In x (split c s) -> free_of c x = true.
Proof.
  induction s as [|a s IH]; simpl; intros x Hx.
  - destruct Hx as [<-|[]]. reflexivity.
  - destruct (Ascii.eqb a c) eqn:Hac.
    + destruct Hx as [<-|Hx]; [reflexivity | now apply IH].
    + destruct (split c s) as [|h t].
      * destruct Hx as [<-|[]]. simpl. now rewrite Hac.
      * destruct Hx as [<-|Hx].
        -- simpl. rewrite Hac. simpl. apply IH. now left.
        -- apply IH. now right.
Qed.

Lemma join_snoc (sep : string) (before : list string) (x : string) :
  exists pre, join sep (before ++ [x]) = (pre ++ x)%string.
Proof.
  induction before as [|b before (pre & IH)]; [exists EmptyString; reflexivity|].
  change ((b :: before) ++ [x]) with (b :: (before ++ [x])).
  destruct (before ++ [x]) as [|y l] eqn:E; [now destruct before|].
  change (join sep (b :: y :: l)) with (b ++ sep ++ join sep (y :: l))%string.
  exists (b ++ sep ++ pre)%string. rewrite IH, !string_app_assoc. reflexivity.
Qed.

Lemma walk_prefix_not_root (before : list string) (x cp : string) :
  x <> EmptyString -> free_of "/"%char x = true ->
  slash_terminated (join "/" (before ++ [x])) = Ok cp ->
  cp <> "/".
Proof.
  intros Hx Hfree Hcp ->.
  pose proof (join_last_nonempty "/" before x Hx) as Hne.
  destruct (slash_terminated_ok _ Hne) as (q & Hq & _ & Hform).
  rewrite Hcp in Hq. injection Hq as <-.
  destruct Hform as [Hj|Hj].
  - destruct (join_snoc "/" before x) as (pre & Hpre). rewrite Hpre in Hj.
    destruct pre as [|a pre]; simpl in Hj.
    + subst x. discriminate.
    + injection Hj as _ Hj. symmetry in Hj. apply string_app_empty in Hj. contradiction.
  - destruct (join "/" (before ++ [x])) as [|a j]; [contradiction|].
    simpl in Hj. injection Hj as _ Hj. destruct j; discriminate.
Qed.

Section EmptyCache.

Variable affinity : string -> option Number.
Variable drive : Drive.
Variable folder : string.

Hypothesis nothing_below_None :
  forall x f l, ListFile_GetList drive (folder_query None x) <> Ok (f :: l).

Lemma getFolderId_loop_from_None (s : list string) :
  forall before dbc w fid dbc' w',
    (forall x, In x s -> free_of "/"%char x = true) ->
    (forall p, p <> "/" -> row_for_path p w = None) ->
    has_component s = true ->
    getFolderId_loop affinity drive before s None dbc w <> (Ok (Some fid, dbc'), w').
Proof.
  induction s as [|x s IH]; intros before dbc w fid dbc' w' Hfree Hrows Hcomp;
    [discriminate|].
  rewrite getFolderId_loop_cons. simpl in Hcomp.
  destruct (0 <? Z.of_nat (String.length x)) eqn:Hx.
  - destruct (slash_terminated (join "/" (before ++ [x]))) as [cp|e] eqn:Hcp;
      [|discriminate].
    rewrite (Hrows cp).
    + cbv zeta. pose proof (nothing_below_None x) as Hnone.
      destruct (ListFile_GetList drive (folder_query None x)) as [[|f l]|e];
        [discriminate | exfalso; now apply (Hnone f l) | discriminate].
    + apply (walk_prefix_not_root before x);
        [now apply nonempty_length | apply Hfree; now left | exact Hcp].
  - apply IH; [intros y Hy; apply Hfree; now right | exact Hrows | exact Hcomp].
Qed.

End EmptyCache.

(** X12. On an empty cache the first resolution of a path with a component
    never returns a folder id, whatever the library holds: root discovery
    stores the id of the root, as the column holds it, but hands [None] to
    the walk, which then asks
    the remote for the first component below the parent 'None'.  This holds
    for every remote that lists nothing below that parent. *)
Theorem first_resolution_on_empty_cache_finds_nothing
  (affinity : string -> option Number) (drive : Drive) (folder p : string) (w : World) :
  gdrive_ids (session w) = [] ->
  has_component (split "/"%char p) = true ->
  (forall x f l, ListFile_GetList drive (folder_query None x) <> Ok (f :: l)) ->
  (forall fid, fst (getFolderId affinity drive folder p w) <> Ok (Some fid)) /\
  row_for_path "/" (snd (getFolderId affinity drive folder p w))
  = Some (mkGdriveId 1 (stored affinity (discovered_root drive folder)) "/").
Proof.
  intros Hempty Hcomp Hnone.
  assert (Hroot : row_for_path "/" w = None) by (unfold row_for_path; now rewrite Hempty).
  set (w1 := after_root_discovery affinity drive folder w).
  assert (Hrows : forall q, q <> "/" -> row_for_path q w1 = None).
  { intros q Hq. unfold row_for_path, w1, after_root_discovery.
    cbn [session gdrive_ids]. rewrite Hempty. cbn [app find path map].
    destruct (String.eqb_spec "/" q) as [Heq|Hneq]; [congruence | reflexivity]. }
  assert (Hroot1 : row_for_path "/" w1
                   = Some (mkGdriveId 1 (stored affinity (discovered_root drive folder))
                                      "/")).
  { unfold w1. rewrite (after_root_discovery_has_root affinity drive folder w Hroot).
    now rewrite Hempty. }
  unfold getFolderId, bind. rewrite (getEbooksFolderId_discovers affinity drive folder w Hroot).
  fold w1. unfold getFolderId_body, bind, lift, query_path.
  destruct (slash_terminated p) as [sq|e] eqn:Hsq; [|split; [discriminate | exact Hroot1]].
  assert (Hsq_root : sq <> "/").
  { intros ->. assert (Hne : p <> EmptyString) by (intros ->; discriminate).
    destruct (slash_terminated_ok p Hne) as (q & Hq & _ & Hform).
    rewrite Hsq in Hq. injection Hq as <-.
    destruct Hform as [<-|Hform]; [discriminate|].
    destruct p as [|a p]; [contradiction|]. simpl in Hform.
    injection Hform as _ Hform. destruct p; discriminate. }
  pose proof (Hrows sq Hsq_root) as Hmiss. unfold row_for_path in Hmiss. rewrite Hmiss.
  pose proof (getFolderId_loop_extends affinity drive (split "/"%char p) [] None false w1) as He.
  destruct (getFolderId_loop affinity drive [] (split "/"%char p) None false w1)
    as [[[r dbc]|e] w2] eqn:Hloop; simpl in He.
  - assert (Hr : r = None).
    { destruct r as [fid|]; [|reflexivity]. exfalso.
      apply (getFolderId_loop_from_None affinity drive Hnone _ _ _ _ _ _ _
               (split_free "/"%char p) Hrows Hcomp Hloop). }
    subst r.
    destruct dbc; simpl; (split; [discriminate | now apply He]).
  - simpl. split; [discriminate | now apply He].
Qed.

Lemma contains_later (old pre s : string) :
  contains old s = true -> contains old (pre ++ s)%string = true.
Proof.
  intros H. induction pre as [|a pre IH]; [exact H|].
  simpl. rewrite IH. apply orb_true_r.
Qed.

Lemma first_resolution_on_empty_cache_finds_nothing_witness :
  fst (getFolderId Examples.affinity parentless_drive "Calibre" "Books/Author1" empty_world)
  <> Ok (Some (PyStr "id-found")).
Proof.
  assert (Hnone : forall x f l,
             ListFile_GetList parentless_drive (folder_query None x) <> Ok (f :: l)).
  { intros x f l. unfold parentless_drive. cbn [ListFile_GetList].
    assert (Hin : contains "'None' in parents" (folder_query None x) = true).
    { unfold folder_query. apply contains_later. reflexivity. }
    rewrite Hin. discriminate. }
  exact (proj1 (first_resolution_on_empty_cache_finds_nothing
                  Examples.affinity parentless_drive "Calibre"
                  "Books/Author1" empty_world eq_refl eq_refl Hnone) (PyStr "id-found")).
Defined.

(** ** The singleton decorator *)

Lemma Instance_times_initialised {A : Type} (n : nat) (self : Singleton A) (a : A) :
  _instance self = Some a ->
  Instance_times n self = (repeat (Ok a) n, self).
Proof.
  intros Ha. induction n as [|n IH]; [reflexivity|].
  simpl. unfold Instance at 1. rewrite Ha, IH. reflexivity.
Qed.

Lemma Instance_times_constructions {A : Type} (n : nat) :
  forall self : Singleton A,
    (constructions self <= constructions (snd (Instance_times n self))
     <= constructions self + n)%nat.
Proof.
  induction n as [|n IH]; intros self; simpl; [lia|].
  destruct (Instance self) as [r self'] eqn:Hi.
  specialize (IH self'). destruct (Instance_times n self') as [rs self'']. simpl in *.
  assert (constructions self <= constructions self' <= S (constructions self))%nat; [|lia].
  unfold Instance in Hi. destruct (_instance self).
  - injection Hi as _ <-. lia.
  - destruct (_decorated self (constructions self)); injection Hi as _ <-; simpl; lia.
Qed.

(** X13. [Singleton.Instance]: once a call has returned an instance, every
    later call returns that same instance and the decorated class is not
    constructed again; a call in which the constructor raises leaves the
    singleton without instance, so that the next call constructs anew; and
    [n] calls construct at most [n] times. *)
Theorem Instance_constructs_once {A : Type} (self : Singleton A) :
  (forall a self',
      Instance self = (Ok a, self') ->
      _instance self' = Some a /\
      (constructions self' <= S (constructions self))%nat /\
      forall n, Instance_times n self' = (repeat (Ok a) n, self')) /\
  (forall e self',
      Instance self = (Raise e, self') ->
      _instance self = None /\ _instance self' = None /\
      constructions self' = S (constructions self) /\
      Instance self' = match _decorated self (S (constructions self)) with
                       | Ok a => (Ok a, mkSingleton (_decorated self) (Some a)
                                                    (S (S (constructions self))))
                       | Raise e' => (Raise e', mkSingleton (_decorated self) None
                                                            (S (S (constructions self))))
                       end) /\
  (forall n, (constructions (snd (Instance_times n self)) <= constructions self + n)%nat).
Proof.
  split; [|split].
  - intros a self' Hi.
    assert (Ha : _instance self' = Some a /\ (constructions self' <= S (constructions self))%nat).
    { unfold Instance in Hi. destruct (_instance self) as [b|] eqn:Hb.
      - injection Hi as <- <-. auto.
      - destruct (_decorated self (constructions self)); [|discriminate].
        injection Hi as <- <-. simpl. auto. }
    destruct Ha as [Ha Hc]. split; [exact Ha|]. split; [exact Hc|].
    intros n. now apply Instance_times_initialised.
  - intros e self' Hi. unfold Instance in Hi.
    destruct (_instance self) as [b|] eqn:Hb; [discriminate|].
    destruct (_decorated self (constructions self)); [discriminate|].
    injection Hi as _ <-. repeat split.
  - intros n. apply Instance_times_constructions.
Qed.

Lemma Instance_constructs_once_witness :
  Instance_times 3 (snd (Instance (mkSingleton (fun n => Ok n) None 0)))
  = ([Ok 0%nat; Ok 0%nat; Ok 0%nat], mkSingleton (fun n => Ok n) (Some 0%nat) 1).
Proof.
  exact (proj2 (proj2 (proj1 (Instance_constructs_once (mkSingleton (fun n => Ok n) None 0))
                             0%nat _ eq_refl)) 3%nat).
Defined.

(** ** The statement built by the migration *)

Lemma clash_prefix (q : string) :
  forall b t, clash q b = true -> String.prefix q (b ++ t)%string = false.
Proof.
  induction q as [|x q IH]; intros b t H; [discriminate|].
  destruct b as [|y b]; [discriminate|]. simpl in *.
  destruct (Ascii.ascii_dec x y) as [->|Hne]; [|reflexivity].
  rewrite Ascii.eqb_refl in H. now apply IH.
Qed.

Section ReplaceFacts.

Variables old new : string.

Lemma prefix_through_replace (q : string) :
  forall s, suffixes_clash q new = true ->
            String.prefix q (replace_from old new O s) = true ->
            String.prefix q s = true.
Proof.
  induction q as [|x q IH]; intros s Hq H; [now destruct s|].
  cbn [suffixes_clash] in Hq. apply andb_prop in Hq as [Hclash Hq].
  destruct s as [|c s]; [simpl in H; discriminate|].
  cbn [replace_from] in H.
  destruct (String.prefix old (String c s)).
  - rewrite (clash_prefix _ _ _ Hclash) in H. discriminate.
  - simpl in *. destruct (Ascii.ascii_dec x c); [now apply IH | discriminate].
Qed.

Lemma contains_after_block (q : string) :
  forall b t, clashes_inside q b = true ->
              contains q (b ++ t)%string = contains q t.
Proof.
  induction b as [|y b IH]; intros t H; [reflexivity|].
  cbn [clashes_inside] in H. apply andb_prop in H as [Hclash H].
  change (contains q (String y b ++ t)%string)
    with (String.prefix q (String y b ++ t)%string || contains q (b ++ t)%string).
  rewrite (clash_prefix _ _ _ Hclash). simpl. now apply IH.
Qed.

(** Replacing cannot bring in a pattern that clashes with the replacement
    text, whether the pattern is the one replaced or another one that is
    absent to begin with. *)
Lemma replace_never_introduces (x : ascii) (q : string) :
  suffixes_clash q new = true ->
  clashes_inside (String x q) new = true ->
  forall s k,
    (old = String x q \/ contains (String x q) s = false) ->
    contains (String x q) (replace_from old new k s) = false.
Proof.
  intros Hq Hin. induction s as [|c s IH]; intros k Habsent; [reflexivity|].
  assert (Hrest : old = String x q \/ contains (String x q) s = false).
  { destruct Habsent as [H|H]; [now left | right].
    simpl in H. apply orb_false_elim in H as [_ H]. exact H. }
  cbn [replace_from]. destruct k as [|k]; [|now apply IH].
  destruct (String.prefix old (String c s)) eqn:Hmatch.
  - rewrite contains_after_block by exact Hin. now apply IH.
  - change (contains (String x q) (String c (replace_from old new O s)))
      with (String.prefix (String x q) (String c (replace_from old new O s))
            || contains (String x q) (replace_from old new O s)).
    rewrite (IH O Hrest), orb_false_r.
    destruct (String.prefix (String x q) (String c (replace_from old new O s))) eqn:Hp;
      [|reflexivity].
    assert (Hin_s : String.prefix (String x q) (String c s) = true).
    { simpl in *. destruct (Ascii.ascii_dec x c); [|discriminate].
      now apply prefix_through_replace. }
    destruct Habsent as [->|H].
    + congruence.
    + simpl in H. apply orb_false_elim in H as [H _]. simpl in Hin_s. congruence.
Qed.

End ReplaceFacts.

Lemma prefix_app_self (r t : string) : String.prefix r (r ++ t)%string = true.
Proof.
  induction r as [|x r IH]; [now destruct t|].
  simpl. destruct (Ascii.ascii_dec x x); [exact IH | contradiction].
Qed.

Lemma prefix_split (q : string) :
  forall s, String.prefix q s = true -> exists t, s = (q ++ t)%string.
Proof.
  induction q as [|x q IH]; intros s H; [exists s; reflexivity|].
  destruct s as [|c s]; [discriminate|]. simpl in H.
  destruct (Ascii.ascii_dec x c) as [->|]; [|discriminate].
  destruct (IH s H) as (t & ->). exists t. reflexivity.
Qed.

Lemma contains_prefix (q s : string) : String.prefix q s = true -> contains q s = true.
Proof.
  intros H. destruct s as [|c s].
  - destruct q; [reflexivity | discriminate].
  - change (contains q (String c s)) with (String.prefix q (String c s) || contains q s).
    now rewrite H.
Qed.

Section ReplaceKeeps.

Variables old new : string.

Lemma replace_from_skip (g : string) :
  forall t, replace_from old new (String.length g) (g ++ t)%string
            = replace_from old new O t.
Proof.
  induction g as [|c g IH]; intros t; simpl.
  - destruct t; reflexivity.
  - apply IH.
Qed.

(** Where the replaced pattern occurred, the replacement text occurs. *)
Lemma replace_brings_in (y : ascii) (g : string) :
  old = String y g ->
  forall s, contains old s = true -> contains new (replace_from old new O s) = true.
Proof.
  intros Hold. induction s as [|c s IH]; intros H.
  - rewrite Hold in H. discriminate.
  - cbn [replace_from]. destruct (String.prefix old (String c s)) eqn:Hmatch.
    + apply contains_prefix, prefix_app_self.
    + change (contains old (String c s))
        with (String.prefix old (String c s) || contains old s) in H.
      rewrite Hmatch in H. cbn [orb] in H.
      change (contains new (String c (replace_from old new O s)))
        with (String.prefix new (String c (replace_from old new O s))
              || contains new (replace_from old new O s)).
      rewrite (IH H). apply orb_true_r.
Qed.

Lemma prefix_survives (q : string) :
  forall s, clashes_inside old q = true ->
            String.prefix q s = true ->
            String.prefix q (replace_from old new O s) = true.
Proof.
  induction q as [|x q IH]; intros s Hq H;
    [now destruct (replace_from old new O s)|].
  cbn [clashes_inside] in Hq. apply andb_prop in Hq as [Hclash Hq].
  destruct (prefix_split _ _ H) as (t & ->).
  change (String x q ++ t)%string with (String x (q ++ t)%string) in *.
  cbn [replace_from].
  change (String x (q ++ t)%string) with (String x q ++ t)%string at 1.
  rewrite (clash_prefix _ _ _ Hclash).
  simpl in *. destruct (Ascii.ascii_dec x x); [|contradiction]. now apply IH.
Qed.

(** An occurrence of a pattern that cannot overlap the replaced text, nor
    start inside the replacement text, is still there after replacing. *)
Lemma replace_keeps_present (q : string) (y : ascii) (g : string) :
  old = String y g ->
  clashes_inside old q = true ->
  clashes_inside q old = true ->
  clashes_inside q new = true ->
  forall n s, (String.length s <= n)%nat ->
              contains q s = true ->
              contains q (replace_from old new O s) = true.
Proof.
  intros Hold Hoq Hqo Hqn. induction n as [|n IH]; intros s Hlen H.
  - destruct s; [exact H | simpl in Hlen; lia].
  - destruct s as [|c s]; [exact H|].
    cbn [replace_from]. destruct (String.prefix old (String c s)) eqn:Hmatch.
    + destruct (prefix_split _ _ Hmatch) as (t & Ht).
      rewrite Ht, contains_after_block in H by exact Hqo.
      rewrite contains_after_block by exact Hqn.
      rewrite Hold in Ht. simpl in Ht. injection Ht as _ ->.
      replace (Nat.pred (String.length old)) with (String.length g)
        by (rewrite Hold; reflexivity).
      rewrite replace_from_skip.
      apply IH; [|exact H].
      simpl in Hlen. rewrite string_length_app in Hlen. lia.
    + change (contains q (String c (replace_from old new O s)))
        with (String.prefix q (String c (replace_from old new O s))
              || contains q (replace_from old new O s)).
      change (contains q (String c s))
        with (String.prefix q (String c s) || contains q s) in H.
      apply orb_prop in H as [H|H].
      * pose proof (prefix_survives q (String c s) Hoq H) as Hp.
        cbn [replace_from] in Hp. rewrite Hmatch in Hp. rewrite Hp. reflexivity.
      * rewrite (IH s); [apply orb_true_r | simpl in Hlen; lia | exact H].
Qed.

End ReplaceKeeps.

(** X14. Whatever text the old table was created with, the statement that
    [migrate] builds from it does not contain the standalone constraint
    'UNIQUE (gdrive_id)': the first replacement removes every occurrence
    and renaming the table brings none back, so a table created from that
    statement is not rewritten by a later run.  And when the old text
    carried the standalone constraint, the statement carries the widened
    one, 'UNIQUE (gdrive_id, path)'. *)
Theorem widened_sql_swaps_constraint (sql : string) :
  contains "UNIQUE (gdrive_id)" (widened_sql sql) = false /\
  no_standalone_constraint [widened_sql sql] /\
  (contains "UNIQUE (gdrive_id)" sql = true ->
   contains "UNIQUE (gdrive_id, path)" (widened_sql sql) = true).
Proof.
  assert (H : contains "UNIQUE (gdrive_id)" (widened_sql sql) = false).
  { unfold widened_sql, replace, currUniqueConstraint.
    apply (replace_never_introduces "gdrive_ids" "gdrive_ids2" "U" "NIQUE (gdrive_id)");
      [reflexivity | reflexivity |].
    right.
    apply (replace_never_introduces "UNIQUE (gdrive_id)" "UNIQUE (gdrive_id, path)"
                                    "U" "NIQUE (gdrive_id)");
      [reflexivity | reflexivity |].
    now left. }
  split; [exact H|]. split.
  - intros s [<-|[]] _. exact H.
  - intros Hold. unfold widened_sql, replace, currUniqueConstraint.
    apply (replace_keeps_present "gdrive_ids" "gdrive_ids2" "UNIQUE (gdrive_id, path)"
                                 "g" "drive_ids" eq_refl eq_refl eq_refl eq_refl
                                 _ _ (Nat.le_refl _)).
    exact (replace_brings_in "UNIQUE (gdrive_id)" "UNIQUE (gdrive_id, path)"
                             "U" "NIQUE (gdrive_id)" eq_refl sql Hold).
Qed.

Lemma widened_sql_swaps_constraint_witness :
  contains "UNIQUE (gdrive_id, path)"
           (widened_sql "CREATE TABLE gdrive_ids (id INTEGER, gdrive_id INTEGER, UNIQUE (gdrive_id))")
  = true.
Proof.
  apply (proj2 (proj2 (widened_sql_swaps_constraint
    "CREATE TABLE gdrive_ids (id INTEGER, gdrive_id INTEGER, UNIQUE (gdrive_id))"))).
  reflexivity.
Defined.

(** ** Where cached ids come from *)

Section Provenance.

Variable affinity : string -> option Number.
Variable drive : Drive.
Variable folder : string.

Lemma getFolderId_loop_added (s : list string) :
  forall before cur dbc w,
    exists added,
      gdrive_ids (session (snd (getFolderId_loop affinity drive before s cur dbc w)))
      = gdrive_ids (session w) ++ added /\
      forall r, In r added -> listed_by affinity drive r.
Proof.
  induction s as [|x s IH]; intros before cur dbc w.
  - exists []. split; [simpl; now rewrite app_nil_r | intros r []].
  - rewrite getFolderId_loop_cons.
    assert (Hsame : exists added : list GdriveId,
               gdrive_ids (session w) = gdrive_ids (session w) ++ added /\
               forall r, In r added -> listed_by affinity drive r).
    { exists []. split; [now rewrite app_nil_r | intros r []]. }
    destruct (0 <? Z.of_nat (String.length x)); [|apply IH].
    destruct (slash_terminated (join "/" (before ++ [x]))) as [cp|e]; [|exact Hsame].
    destruct (row_for_path cp w); [apply IH|].
    cbv zeta.
    destruct (ListFile_GetList drive (folder_query cur x)) as [[|f l]|e] eqn:Hlist;
      try exact Hsame.
    destruct (IH (before ++ [x]) (Some (PyStr (file_id f))) true
                 (insert_row affinity (Some (PyStr (file_id f))) cp
                             (record_call (CallListFile (folder_query cur x)) w)))
      as (added & Hrows & Hadded).
    eexists (_ :: added). split.
    + rewrite Hrows. simpl. rewrite <- app_assoc. reflexivity.
    + intros r [<-|Hr]; [|now apply Hadded].
      exists (folder_query cur x), f, l. split; [exact Hlist | reflexivity].
Qed.

Lemma getFolderId_body_added (cur : option PyValue) (p : string) (w : World) :
  exists added,
    gdrive_ids (session (snd (getFolderId_body affinity drive cur p w)))
    = gdrive_ids (session w) ++ added /\
    forall r, In r added -> listed_by affinity drive r.
Proof.
  assert (Hsame : exists added : list GdriveId,
             gdrive_ids (session w) = gdrive_ids (session w) ++ added /\
             forall r, In r added -> listed_by affinity drive r).
  { exists []. split; [now rewrite app_nil_r | intros r []]. }
  unfold getFolderId_body, bind, lift, query_path.
  destruct (slash_terminated p) as [sq|e]; [|exact Hsame].
  destruct (find (fun r => String.eqb (path r) sq) (gdrive_ids (session w)));
    [exact Hsame|].
  pose proof (getFolderId_loop_added (split "/"%char p) [] cur false w) as Hloop.
  destruct (getFolderId_loop affinity drive [] (split "/"%char p) cur false w) as [[[r dbc]|e] w1];
    simpl in *; [|exact Hloop].
  destruct dbc; simpl; exact Hloop.
Qed.

End Provenance.

(** X15. A resolution only appends to the cache, and every row it appends
    holds what the Integer column makes of a remote id that a listing of
    the remote returned, except the row that root discovery stores for "/",
    which holds what the column makes of whatever root discovery found and
    nothing when it found nothing. *)
Theorem getFolderId_rows_come_from_listings
  (affinity : string -> option Number) (drive : Drive) (folder p : string) (w : World) :
  exists added,
    gdrive_ids (session (snd (getFolderId affinity drive folder p w)))
    = gdrive_ids (session w) ++ added /\
    forall r, In r added ->
              listed_by affinity drive r \/
              (path r = "/" /\
               gdrive_id r = stored affinity (discovered_root drive folder) /\
               row_for_path "/" w = None).
Proof.
  unfold getFolderId, bind.
  destruct (row_for_path "/" w) as [root|] eqn:Hroot.
  - rewrite (getEbooksFolderId_cached affinity drive folder w root Hroot).
    destruct (getFolderId_body_added affinity drive (gdrive_id root) p w)
      as (added & Hrows & Hadded).
    exists added. split; [exact Hrows | intros r Hr; left; now apply Hadded].
  - rewrite (getEbooksFolderId_discovers affinity drive folder w Hroot).
    destruct (getFolderId_body_added affinity drive None p
                                     (after_root_discovery affinity drive folder w))
      as (added & Hrows & Hadded).
    eexists (_ :: added). split.
    + rewrite Hrows. unfold after_root_discovery. simpl. rewrite <- app_assoc. reflexivity.
    + intros r [<-|Hr]; [right; auto | left; now apply Hadded].
Qed.

(** ** What the bare return of root discovery costs *)



(** ** A grant call that raises *)

(** X17. When the cover is found, no row records a grant yet, and
    [InsertPermission] raises, [get_cover_via_gdrive] raises that exception
    with the call recorded and no row stored; the same holds, without the
    grant call, when [GetPermissions] raises.  The existence check of the
    next request thus fails again and the grant is attempted again. *)
Theorem failed_grant_is_not_recorded
  (affinity : string -> option Number) (drive : Drive) (folder : string)
  (cover_path : option string) (w w1 : World) (f : DriveFile) (e : Exn) :
  getFileFromEbooksFolder affinity drive folder cover_path "cover.jpg" w
  = (Ok (Some f), w1) ->
  permission_for affinity (file_id f) w = None ->
  (GetPermissions drive f = Raise e ->
   fst (get_cover_via_gdrive affinity drive folder cover_path w) = Raise e /\
   grants_of (file_id f) (snd (get_cover_via_gdrive affinity drive folder cover_path w))
   = grants_of (file_id f) w /\
   permission_for affinity (file_id f)
                  (snd (get_cover_via_gdrive affinity drive folder cover_path w)) = None) /\
  (GetPermissions drive f = Ok tt -> InsertPermission drive f = Raise e ->
   fst (get_cover_via_gdrive affinity drive folder cover_path w) = Raise e /\
   grants_of (file_id f) (snd (get_cover_via_gdrive affinity drive folder cover_path w))
   = S (grants_of (file_id f) w) /\
   permission_for affinity (file_id f)
                  (snd (get_cover_via_gdrive affinity drive folder cover_path w)) = None /\
   permissions_added (session (snd (get_cover_via_gdrive affinity drive folder cover_path w)))
   = permissions_added (session w)).
Proof.
  intros Hfile Hnone.
  split.
  - intros Hget.
    pose proof (frame_getFileFromEbooksFolder affinity drive folder cover_path
                                              "cover.jpg" w) as Hk.
    rewrite Hfile in Hk. simpl in Hk.
    pose proof (keeps_grants_permission_for affinity w w1 (file_id f) Hk) as Hperm.
    destruct Hk as [Hrows Hgrants].
    rewrite get_cover_via_gdrive_unfold, Hfile, Hperm, Hnone, Hget. simpl.
    split; [reflexivity|]. split.
    + rewrite grants_of_record_call, Hgrants. simpl. lia.
    + unfold permission_for in *. simpl. now rewrite Hrows.
  - intros Hget Hins.
    exact (get_cover_via_gdrive_grant_raises affinity drive folder cover_path w w1 f e
                                             Hfile Hnone Hget Hins).
Qed.

Lemma failed_grant_is_not_recorded_witness :
  grants_of Examples.id_cover
    (run_ops Examples.affinity
             (mkDrive Examples.tree_listing (fun _ => Ok tt)
                      (fun _ => Raise (RemoteError "HttpError")))
             "Calibre"
             [OpGetCoverViaGdrive (Some "Books/Author1")]
             Examples.root_cached)
  = 1%nat.
Proof.
  pose proof (failed_grant_is_not_recorded Examples.affinity
                (mkDrive Examples.tree_listing (fun _ => Ok tt)
                         (fun _ => Raise (RemoteError "HttpError")))
                "Calibre" (Some "Books/Author1") Examples.root_cached _
                (mkDriveFile Examples.id_cover (Some "https://drive.example/cover"))
                (RemoteError "HttpError") eq_refl eq_refl) as [_ H].
  destruct (H eq_refl eq_refl) as (_ & Hg & _). exact Hg.
Defined.

(** ** Remote ids that read as numbers *)

(** X18. The folder of a path of one component that is not cached is
    looked up below the cached root.  The resolution that finds it returns
    its id as the remote gave it and stores it; the next resolution of the
    path returns what the Integer column made of that id, without a remote
    call.  On a remote that names "Books" by "007" the first resolution
    thus returns the text and the second the number 7, and "Author1" is
    found below "Books" by a resolution that walks both components, but
    not once "Books" is cached, the remote being asked for the parent '7'. *)
Theorem numeric_id_is_read_back_as_number
  (affinity : string -> option Number) (drive : Drive) (folder x : string)
  (w : World) (root : GdriveId) (f : DriveFile) (l : list DriveFile) :
  x <> EmptyString -> free_of "/"%char x = true ->
  row_for_path "/" w = Some root ->
  row_for_path (x ++ "/") w = None ->
  ListFile_GetList drive (folder_query (gdrive_id root) x) = Ok (f :: l) ->
  (exists w',
      getFolderId affinity drive folder x w = (Ok (Some (PyStr (file_id f))), w') /\
      getFolderId affinity drive folder x w'
      = (Ok (Some (to_column affinity (PyStr (file_id f)))), w')) /\
  fst (getFolderId Examples.affinity Examples.numbered_drive "Calibre" "Books/Author1"
                   Examples.root_cached)
  = Ok (Some (PyStr Examples.id_author1)) /\
  fst (getFolderId Examples.affinity Examples.numbered_drive "Calibre" "Books/Author1"
         (snd (getFolderId Examples.affinity Examples.numbered_drive "Calibre" "Books"
                           Examples.root_cached)))
  = Ok None.
Proof.
  intros Hx Hfree Hroot Hrow Hlist.
  split; [|split; vm_compute; reflexivity].
  assert (Hlen : (0 <? Z.of_nat (String.length x)) = true).
  { destruct x; [contradiction | reflexivity]. }
  set (w1 := insert_row affinity (Some (PyStr (file_id f))) (x ++ "/")
                        (record_call (CallListFile (folder_query (gdrive_id root) x)) w)).
  exists (snd (session_commit w1)).
  assert (Hfirst : getFolderId affinity drive folder x w
                   = (Ok (Some (PyStr (file_id f))), snd (session_commit w1))).
  { unfold getFolderId, bind.
    rewrite (getEbooksFolderId_cached affinity drive folder w root Hroot).
    unfold getFolderId_body, bind, lift, query_path.
    rewrite (slash_terminated_component x Hx Hfree).
    unfold row_for_path in Hrow. rewrite Hrow.
    rewrite (split_of_free _ _ Hfree), getFolderId_loop_cons, Hlen.
    change (join "/" ([] ++ [x])) with x.
    rewrite (slash_terminated_component x Hx Hfree).
    unfold row_for_path. rewrite Hrow. cbv zeta. rewrite Hlist. reflexivity. }
  split; [exact Hfirst|].
  destruct (row_for_path_insert_same affinity (Some (PyStr (file_id f))) (x ++ "/")
              (record_call (CallListFile (folder_query (gdrive_id root) x)) w) Hrow)
    as (r & Hr & Hg).
  assert (Hroot' : row_for_path "/" (snd (session_commit w1)) = Some root).
  { apply (extends_insert_row affinity (Some (PyStr (file_id f))) (x ++ "/")
             (record_call (CallListFile (folder_query (gdrive_id root) x)) w)).
    exact Hroot. }
  rewrite (getFolderId_cached affinity drive folder (snd (session_commit w1)) x
                              (x ++ "/") root r
                              (slash_terminated_component x Hx Hfree) Hroot' Hr).
  rewrite Hg. reflexivity.
Qed.

Lemma numeric_id_is_read_back_as_number_witness :
  fst (getFolderId Examples.affinity Examples.numbered_drive "Calibre" "Books"
                   Examples.root_cached)
  = Ok (Some (PyStr "007")) /\
  fst (getFolderId Examples.affinity Examples.numbered_drive "Calibre" "Books"
         (snd (getFolderId Examples.affinity Examples.numbered_drive "Calibre" "Books"
                           Examples.root_cached)))
  = Ok (Some (PyNum (Whole 7))).
Proof.
  destruct (numeric_id_is_read_back_as_number Examples.affinity Examples.numbered_drive
              "Calibre" "Books" Examples.root_cached
              (mkGdriveId 1 (Some (PyStr Examples.id_library)) "/")
              (mkDriveFile "007" None) [])
    as ((w' & Hfirst & Hsecond) & _); try reflexivity; [discriminate|].
  rewrite Hfirst. cbn [fst snd]. rewrite Hsecond. split; reflexivity.
Defined.
